(** * inline-fs-fixture: a shallow embedding of [src/index.ts]

    The development follows the layering of the package:
    - [node:path] ([join]) and the separator helper [slash];
    - [node:fs/promises] ([mkdir], [writeFile], [readFile], [readdir], [rm],
      [cp]) over a finite map from absolute paths to entries;
    - the collaborators of [index.ts] that live in [create-iff-impl.ts] and
      [get-paths.ts];
    - [defineIFFCreator] and the handle it returns, in a state-and-error
      monad over the file system, the root-directory generator and a log of
      the I/O calls.

    Promises are run to completion one after the other: [await] is the
    monadic bind, and the members of a [Promise.all] are run in list order. *)

From Stdlib Require Import String Ascii.
From stdpp Require Import base option list gmap strings fin_maps.

Open Scope string_scope.
Open Scope list_scope.

(** ** Paths *)

(** An absolute location on disk is the list of its segments, root first. *)
Abbreviation path := (list string).

Definition sep : ascii := "/"%char.

(** Cut a string at every separator; empty pieces are kept. *)
Fixpoint split (s : string) : list string :=
  match s with
  | EmptyString => [EmptyString]
  | String c r =>
      if Ascii.eqb c sep then EmptyString :: split r
      else match split r with
           | [] => [String c EmptyString]
           | h :: t => String c h :: t
           end
  end.

(** The segments of a POSIX path: repeated, leading and trailing separators
    name no segment. A path string names the location [segments s] on the
    disk. The operating system resolves the segments [.] and [..]; here
    they are ordinary names, so this reading is that of the operating
    system for the paths that do not use them, which is what [plain] says
    of a path. A relative path is read from the root of the disk. *)
Definition segments (s : string) : path :=
  filter (λ x : string, x ≠ EmptyString) (split s).

Definition plain (p : path) : Prop := ("." ∉ p) ∧ (".." ∉ p).

Definition render (p : path) : string := String.concat "/" p.

Definition isAbsolute (s : string) : bool :=
  match s with
  | String c _ => Ascii.eqb c sep
  | EmptyString => false
  end.

Fixpoint endsWithSep (s : string) : bool :=
  match s with
  | EmptyString => false
  | String c EmptyString => Ascii.eqb c sep
  | String _ r => endsWithSep r
  end.

(** The normalization of [node:path], one segment at a time: [.] is
    dropped, and [..] takes away the segment before it; when there is none,
    it is dropped in an absolute path and kept in a relative one. *)
Definition normalizeStep (allowAboveRoot : bool) (res : list string) (s : string)
    : list string :=
  if decide (s = ".") then res
  else if decide (s = "..") then
    match last res with
    | Some l => if decide (l = "..") then res ++ [".."] else removelast res
    | None => if allowAboveRoot then [".."] else []
    end
  else res ++ [s].

Definition normalizeSegments (allowAboveRoot : bool) (segs : list string) : list string :=
  foldl (normalizeStep allowAboveRoot) [] segs.

(** [path.join] of [node:path] on POSIX: the non-empty arguments are glued
    with the separator and the result is normalized; a trailing separator
    is kept. *)
Definition join (parts : list string) : string :=
  let glued := String.concat "/" (filter (λ x : string, x ≠ EmptyString) parts) in
  if decide (glued = EmptyString) then "."
  else
    let body := render (normalizeSegments (negb (isAbsolute glued)) (segments glued)) in
    if decide (body = EmptyString) then
      if isAbsolute glued then "/" else if endsWithSep glued then "./" else "."
    else
      (if isAbsolute glued then "/" else EmptyString)
      +:+ body +:+ (if endsWithSep glued then "/" else EmptyString).

(** The non-empty prefixes of a list, shortest first. *)
Fixpoint prefixes {A} (l : list A) : list (list A) :=
  match l with
  | [] => []
  | x :: r => [x] :: map (cons x) (prefixes r)
  end.

Definition dirname (p : path) : path := removelast p.

(** ** The file system *)

Inductive entry :=
  | File (content : string)
  | Dir.

Inductive Errno :=
  | ENOENT
  | ENOTDIR
  | EEXIST
  | EISDIR
  | ERR_FS_CP_EINVAL
  | ERR_FS_CP_DIR_TO_NON_DIR
  | ERR_FS_CP_NON_DIR_TO_DIR.

Inductive Error :=
  | FsError (code : Errno)
  | JsError (message : string).

Inductive Result (A : Type) :=
  | Ok (a : A)
  | Err (e : Error).
Arguments Ok {A} a.
Arguments Err {A} e.

(** A computation that may throw; the state reached when it throws is kept,
    since a rejected promise does not undo what was already written. *)
Definition M (S A : Type) : Type := S → Result A * S.

#[global] Instance M_ret {S} : MRet (M S) := λ A a s, (Ok a, s).
#[global] Instance M_bind {S} : MBind (M S) := λ A B f m s,
  match m s with
  | (Ok a, s') => f a s'
  | (Err e, s') => (Err e, s')
  end.

Definition throw {S A} (e : Error) : M S A := λ s, (Err e, s).

(** Run [f] on every element, first to last, stopping at the first throw. *)
Fixpoint forEach {S A} (f : A → M S unit) (l : list A) : M S unit :=
  match l with
  | [] => mret tt
  | a :: r => f a ;; forEach f r
  end.

Abbreviation FS := (gmap path entry).

(** [lstat]: resolve a path one segment at a time. *)
Fixpoint walk (fs : FS) (base : path) (rest : list string) : Result entry :=
  match rest with
  | [] => Ok Dir
  | s :: rest' =>
      match fs !! (base ++ [s]) with
      | None => Err (FsError ENOENT)
      | Some (File c) =>
          match rest' with
          | [] => Ok (File c)
          | _ => Err (FsError ENOTDIR)
          end
      | Some Dir => walk fs (base ++ [s]) rest'
      end
  end.

Definition lstat (fs : FS) (p : path) : Result entry := walk fs [] p.

(** [mkdir(p, { recursive: true })]. *)
Fixpoint mkdir_from (base : path) (rest : list string) : M FS unit :=
  match rest with
  | [] => mret tt
  | s :: rest' => λ fs,
      match fs !! (base ++ [s]) with
      | Some (File _) =>
          (Err (FsError match rest' with [] => EEXIST | _ => ENOTDIR end), fs)
      | _ => mkdir_from (base ++ [s]) rest' (<[base ++ [s] := Dir]> fs)
      end
  end.

Definition mkdir_p (p : path) : M FS unit := mkdir_from [] p.

(** [writeFile(p, content)]: the parent must be a directory and [p] must not
    be one; an existing file is overwritten. *)
Definition writeFile (p : path) (content : string) : M FS unit := λ fs,
  match lstat fs (dirname p) with
  | Err e => (Err e, fs)
  | Ok (File _) => (Err (FsError ENOTDIR), fs)
  | Ok Dir =>
      match p, fs !! p with
      | [], _ | _, Some Dir => (Err (FsError EISDIR), fs)
      | _, _ => (Ok tt, <[p := File content]> fs)
      end
  end.

(** [readFile(p, 'utf-8')]. *)
Definition fs_readFile (p : path) : M FS string := λ fs,
  match lstat fs p with
  | Ok (File c) => (Ok c, fs)
  | Ok Dir => (Err (FsError EISDIR), fs)
  | Err e => (Err e, fs)
  end.

(** [readdir(p)]: the names directly under the directory [p]. *)
Definition children (fs : FS) (p : path) : list string :=
  omap (λ '(k, _),
          if decide (dirname k = p) then last k else None)
       (map_to_list fs).

Definition fs_readdir (p : path) : M FS (list string) := λ fs,
  match lstat fs p with
  | Ok Dir => (Ok (children fs p), fs)
  | Ok (File _) => (Err (FsError ENOTDIR), fs)
  | Err e => (Err e, fs)
  end.

(** [rm(p, { recursive: true, force: true })]: [force] forgives a missing
    target and nothing else. *)
Definition fs_rm (p : path) : M FS unit := λ fs,
  match lstat fs p with
  | Err (FsError ENOENT) | Ok _ =>
      (Ok tt, filter (λ kv : path * entry, ¬ p `prefix_of` kv.1) fs)
  | Err e => (Err e, fs)
  end.

(** Copy one entry of the source tree to its place under [dst]. *)
Definition cp_entry (src dst : path) (kv : path * entry) : M FS unit := λ fs,
  let target := dst ++ drop (length src) kv.1 in
  match kv.2, fs !! target with
  | Dir, Some (File _) => (Err (FsError ERR_FS_CP_DIR_TO_NON_DIR), fs)
  | File _, Some Dir => (Err (FsError ERR_FS_CP_NON_DIR_TO_DIR), fs)
  | e, _ => (Ok tt, <[target := e]> fs)
  end.

(** [cp(src, dst, { recursive: true, mode: COPYFILE_FICLONE })]. The clone
    and the byte copy give the same tree, so the mode plays no part. Existing
    files at the destination are overwritten ([force] defaults to true). *)
Definition fs_cp (src dst : path) : M FS unit := λ fs,
  match lstat fs src with
  | Err e => (Err e, fs)
  | Ok (File c) =>
      match lstat fs dst with
      | Ok Dir => (Err (FsError ERR_FS_CP_NON_DIR_TO_DIR), fs)
      | _ =>
          if decide (src = dst) then (Err (FsError ERR_FS_CP_EINVAL), fs)
          else (mkdir_p (dirname dst) ;; writeFile dst c) fs
      end
  | Ok Dir =>
      if decide (src `prefix_of` dst) then (Err (FsError ERR_FS_CP_EINVAL), fs)
      else
        match lstat fs dst with
        | Ok (File _) => (Err (FsError ERR_FS_CP_DIR_TO_NON_DIR), fs)
        | _ =>
            (mkdir_p dst ;;
             forEach (cp_entry src dst)
               (filter (λ kv : path * entry, src `prefix_of` kv.1 ∧ kv.1 ≠ src)
                       (map_to_list fs))) fs
        end
  end.

(** ** Directory specifications ([create-iff-impl.ts]) *)

#[local] Set Warnings "-register-all".

(** A [DirectoryItem] is a file with its content or a nested [Directory];
    a [Directory] lists its items under their keys, in declaration order. *)
Inductive DirectoryItem :=
  | FileItem (content : string)
  | DirItem (items : list (string * DirectoryItem)).

Abbreviation Directory := (list (string * DirectoryItem)).

(** Modelled from the spec: [createIFFImpl] of [create-iff-impl.ts], the
    recursive materializer, whose source is not part of the sources at hand.
    A directory node first ensures that its own directory exists, then
    materializes its children; a file leaf ensures the directory of its
    target (which differs from the node's directory only for a key of
    several segments) and writes its content there. The children of one
    node are started together in the package; they run in declaration order
    here. [createNode item target] materializes one node at its target. A
    key is joined to the directory of its node segment by segment, which is
    what [path.join] does for the keys that have no segment [.] or [..]. *)
Fixpoint createNode (item : DirectoryItem) (target : path) {struct item} : M FS unit :=
  match item with
  | FileItem content => mkdir_p (dirname target) ;; writeFile target content
  | DirItem sub =>
      mkdir_p target ;;
      (fix items (l : Directory) {struct l} : M FS unit :=
         match l with
         | [] => mret tt
         | (name, child) :: rest =>
             createNode child (target ++ segments name) ;; items rest
         end) sub
  end.

(** Modelled from the spec: the entry point of the materializer, a
    directory node at [baseDir]. *)
Definition createIFFImpl (directory : Directory) (baseDir : path) : M FS unit :=
  createNode (DirItem directory) baseDir.

(** One child of a directory node whose directory is [baseDir]. *)
Definition createItem (baseDir : path) (kv : string * DirectoryItem) : M FS unit :=
  createNode kv.2 (baseDir ++ segments kv.1).

(** ** Flat path tables ([get-paths.ts]) *)

(** A JavaScript object with string keys and string values, as the list
    of its properties in enumeration order: the keys that are array indices
    first, in ascending numeric order, then the other keys in the order in
    which they were first set. *)
Abbreviation Table := (list (string * string)).

Definition keys (t : Table) : list string := t.*1.

Definition digit (c : ascii) : option N :=
  let n := N_of_ascii c in
  if ((48 <=? n) && (n <=? 57))%N then Some (n - 48)%N else None.

Fixpoint digits (s : string) (acc : N) : option N :=
  match s with
  | EmptyString => Some acc
  | String c r =>
      match digit c with
      | Some d => digits r (10 * acc + d)%N
      | None => None
      end
  end.

(** A key is an array index when it is the decimal writing, without
    leading zero, of a number below [2^32 - 1]. *)
Definition arrayIndex (k : string) : option N :=
  match k with
  | EmptyString => None
  | String "0" (String _ _) => None
  | _ =>
      match digits k 0 with
      | Some n => if (n <? 4294967295)%N then Some n else None
      | None => None
      end
  end.

(** Whether a key that is new to the object is enumerated before the key
    [k'] of the object. *)
Definition enumeratedBefore (k k' : string) : bool :=
  match arrayIndex k, arrayIndex k' with
  | Some n, Some n' => (n <? n')%N
  | Some _, None => true
  | None, _ => false
  end.

Fixpoint tbl_get (k : string) (t : Table) : option string :=
  match t with
  | [] => None
  | (k', v) :: r => if decide (k' = k) then Some v else tbl_get k r
  end.

Fixpoint tbl_update (k v : string) (t : Table) : Table :=
  match t with
  | [] => []
  | (k', v') :: r => if decide (k' = k) then (k, v) :: r else (k', v') :: tbl_update k v r
  end.

Fixpoint tbl_insert (k v : string) (t : Table) : Table :=
  match t with
  | [] => [(k, v)]
  | (k', v') :: r =>
      if enumeratedBefore k k' then (k, v) :: (k', v') :: r
      else (k', v') :: tbl_insert k v r
  end.

(** [t[k] = v]: an existing key keeps its place; a new key takes the place
    the enumeration order gives it. *)
Definition tbl_set (k v : string) (t : Table) : Table :=
  if decide (k ∈ keys t) then tbl_update k v t else tbl_insert k v t.

(** [{ ...a, ...b }]: the properties of [b] are set, in enumeration order,
    on a copy of [a]. *)
Definition spread (a b : Table) : Table :=
  foldl (λ acc kv, tbl_set kv.1 kv.2 acc) a b.

(** Modelled from the spec: [slash] of [get-paths.ts], which turns every
    backslash into a forward slash. *)
Fixpoint slash (s : string) : string :=
  match s with
  | EmptyString => EmptyString
  | String c r => String (if Ascii.eqb c "\"%char then sep else c) (slash r)
  end.

(** The absolute path a table shows for the relative path [rel]. *)
Definition absolute (rootDir : string) (unixStylePath : bool) (rel : string) : string :=
  if unixStylePath then slash (join [rootDir; rel]) else join [rootDir; rel].

(** Modelled from the spec: the traversal of the tree flattener. The
    resolved relative path of every node of a specification, depth
    first in declaration order: a key of several segments names each of its
    intermediate directories before the node itself, and a directory node
    comes before its children. [itemPaths pre item] lists what lies below
    the node [item] found at [pre]. *)
Fixpoint itemPaths (pre : path) (item : DirectoryItem) {struct item} : list path :=
  match item with
  | FileItem _ => []
  | DirItem sub =>
      (fix items (l : Directory) {struct l} : list path :=
         match l with
         | [] => []
         | (name, child) :: rest =>
             map (app pre) (prefixes (segments name))
             ++ itemPaths (pre ++ segments name) child
             ++ items rest
         end) sub
  end.

Definition nodePaths (pre : path) (directory : Directory) : list path :=
  itemPaths pre (DirItem directory).

(** Modelled from the spec: [getPaths] of [get-paths.ts], the tree
    flattener. One entry per node, keyed by the node's relative path with
    forward slashes and holding [join(rootDir, relativePath)]. The order in
    which the flattener enters the keys cannot be read from the sources at
    hand; they are entered in traversal order here, and no statement below
    depends on that order. *)
Definition getPaths (directory : Directory) (rootDir : string) (unixStylePath : bool) : Table :=
  foldl (λ acc p, tbl_set (render p) (absolute rootDir unixStylePath (render p)) acc)
        [] (nodePaths [] directory).

(** Modelled from the spec: [changeRootDirOfPaths] of [get-paths.ts], the
    path rebaser. Keys are kept; every value has its root-directory prefix
    replaced by the new root directory. A value is [join(root, key)] by
    construction of the table, so the rebased value is [join(newRoot, key)]
    and the old root is never guessed from the string. *)
Definition changeRootDirOfPaths (paths : Table) (rootDir : string) (unixStylePath : bool) : Table :=
  map (λ kv, (kv.1, absolute rootDir unixStylePath kv.1)) paths.

(** ** [index.ts] *)

(** [generateRootDir] is a function of no argument that may answer
    differently each time; [generateRootDir n] is its answer to invocation
    number [n], counted from zero. *)
Record DefineIFFCreatorOptions := {
  generateRootDir : nat → string;
  unixStylePath : option bool;
}.

Record CreateIFFOptions := {
  overrideRootDir : option string;
}.

(** [ForkOptions] has the one field of [CreateIFFOptions]. *)
Abbreviation ForkOptions := CreateIFFOptions.

(** The object returned by [createIFF]. [rootDir] and [paths] are its data
    properties; the [cl_] fields are the variables its methods close over:
    the arguments of the [createIFF] call and the root directory it chose,
    before any separator is rewritten. *)
Inductive CreateIFFResult := {
  rootDir : string;
  paths : Table;
  cl_directory : Directory;
  cl_rootDir : string;
  cl_options : option CreateIFFOptions;
  cl_prevIFF : option CreateIFFResult;
}.

(** The calls [index.ts] makes into [node:fs/promises] and
    [create-iff-impl.ts], with their arguments. *)
Inductive Event :=
  | EvReadFile (p : string)
  | EvReaddir (p : string)
  | EvRm (p : string)
  | EvCreateIFFImpl (directory : Directory) (baseDir : string)
  | EvCp (src dst : string).

(** What a call can change: the disk, how often the root-directory
    generator has been invoked, and the calls made so far, oldest first. *)
Record World := {
  disk : FS;
  generated : nat;
  log : list Event;
}.

Definition onDisk {A} (m : M FS A) : M World A := λ w,
  let '(r, fs') := m (disk w) in
  (r, {| disk := fs'; generated := generated w; log := log w |}).

Definition record (e : Event) : M World unit := λ w,
  (Ok tt, {| disk := disk w; generated := generated w; log := log w ++ [e] |}).

Definition node_readFile (p : string) : M World string :=
  record (EvReadFile p) ;; onDisk (fs_readFile (segments p)).

Definition node_readdir (p : string) : M World (list string) :=
  record (EvReaddir p) ;; onDisk (fs_readdir (segments p)).

Definition node_rm (p : string) : M World unit :=
  record (EvRm p) ;; onDisk (fs_rm (segments p)).

Definition node_cp (src dst : string) : M World unit :=
  record (EvCp src dst) ;; onDisk (fs_cp (segments src) (segments dst)).

Definition call_createIFFImpl (directory : Directory) (baseDir : string) : M World unit :=
  record (EvCreateIFFImpl directory baseDir) ;;
  onDisk (createIFFImpl directory (segments baseDir)).

Definition sameRootDirMessage : string :=
  "New `rootDir` must be different from the `rootDir` generated by `generateRootDir`.".

Section defineIFFCreator.
Variable defineIFFCreatorOptions : DefineIFFCreatorOptions.

(** One invocation of [defineIFFCreatorOptions.generateRootDir()]. *)
Definition call_generateRootDir : M World string := λ w,
  (Ok (generateRootDir defineIFFCreatorOptions (generated w)),
   {| disk := disk w; generated := S (generated w); log := log w |}).

(** [options?.overrideRootDir ?? defineIFFCreatorOptions.generateRootDir()] *)
Definition chooseRootDir (options : option CreateIFFOptions) : M World string :=
  match options ≫= overrideRootDir with
  | Some dir => mret dir
  | None => call_generateRootDir
  end.

(** [defineIFFCreatorOptions.unixStylePath ?? false] *)
Definition unixStyle : bool := default false (unixStylePath defineIFFCreatorOptions).

(** The method [join] of the handle. *)
Definition iff_join (iff : CreateIFFResult) (parts : list string) : string :=
  if unixStyle then slash (join (cl_rootDir iff :: parts))
  else join (cl_rootDir iff :: parts).

Definition readFile (iff : CreateIFFResult) (p : string) : M World string :=
  node_readFile (join [cl_rootDir iff; p]).

Definition rmRootDir (iff : CreateIFFResult) : M World unit :=
  node_rm (cl_rootDir iff).

(** The removals of [rmFixtures] are started together by [Promise.all];
    they run one after the other here. *)
Definition rmFixtures (iff : CreateIFFResult) : M World unit :=
  files ← node_readdir (cl_rootDir iff);
  forEach (λ file, node_rm (iff_join iff [file])) files.

(** The previous handle first, at the target of this one, then this
    handle's own specification. *)
Fixpoint writeFixtures (iff : CreateIFFResult) (overrideRoot : option string) : M World unit :=
  match cl_prevIFF iff with
  | Some prevIFF => writeFixtures prevIFF (Some (default (cl_rootDir iff) overrideRoot))
  | None => mret tt
  end ;;
  call_createIFFImpl (cl_directory iff) (default (cl_rootDir iff) overrideRoot).

(** [createIFF(directory, options, __INTERNAL__prevIFF)]: choose the root
    directory, build the handle, then [await iff.writeFixtures()]. *)
Definition createIFF (directory : Directory) (options : option CreateIFFOptions)
    (prevIFF : option CreateIFFResult) : M World CreateIFFResult :=
  dir ← chooseRootDir options;
  let iff :=
    {| rootDir := if unixStyle then slash dir else dir;
       paths := spread (changeRootDirOfPaths (from_option paths [] prevIFF) dir unixStyle)
                       (getPaths directory dir unixStyle);
       cl_directory := directory;
       cl_rootDir := dir;
       cl_options := options;
       cl_prevIFF := prevIFF |} in
  writeFixtures iff None ;;
  mret iff.

Definition addFixtures (iff : CreateIFFResult) (additionalDirectory : Directory)
    : M World CreateIFFResult :=
  createIFF additionalDirectory
    (Some {| overrideRootDir := Some (cl_rootDir iff) |}) (Some iff).

(** [{ ...options, overrideRootDir: newRootDir }] has the one field
    [overrideRootDir], whatever [options] was. *)
Definition fork (iff : CreateIFFResult) (additionalDirectory : Directory)
    (forkOptions : option ForkOptions) : M World CreateIFFResult :=
  newRootDir ← chooseRootDir forkOptions;
  if decide (newRootDir = cl_rootDir iff) then throw (JsError sameRootDirMessage)
  else
    forkedIff ← createIFF additionalDirectory
                   (Some {| overrideRootDir := Some newRootDir |}) (Some iff);
    node_cp (cl_rootDir iff) newRootDir ;;
    mret forkedIff.


End defineIFFCreator.

(** ** Notions used in the statements *)

Fixpoint no_sep (s : string) : Prop :=
  match s with
  | EmptyString => True
  | String c r => c ≠ sep ∧ no_sep r
  end.

(** A segment is a non-empty name without a separator. *)
Definition segment (s : string) : Prop := s ≠ EmptyString ∧ no_sep s.

(** [rel R a b]: the disk [b] is the disk [a] except that it may lack
    entries under [R] and may hold directories outside [R]. *)
Definition rel (R : path) (a b : FS) : Prop :=
  ∀ p, a !! p = b !! p
       ∨ (R `prefix_of` p ∧ b !! p = None)
       ∨ (¬ R `prefix_of` p ∧ b !! p = Some Dir).

(** [Behaved R T m]: [m] changes no path outside [T]; it never turns a
    directory into something else; when it succeeds, what it leaves at the
    paths of [T] does not depend on the disk it started from, and paths on
    which two disks agreed still agree; and it succeeds on every disk that
    differs from one it succeeds on only by lacking entries under [R] or by
    holding directories outside [R]. *)
Record Behaved (R : path) (T : path → Prop) (m : M FS unit) : Prop := {
  bh_frame a r a' p : m a = (r, a') → ¬ T p → a' !! p = a !! p;
  bh_dirs a r a' p : m a = (r, a') → a !! p = Some Dir → a' !! p = Some Dir;
  bh_sets a a' b b' p :
    m a = (Ok tt, a') → m b = (Ok tt, b') → T p → a' !! p = b' !! p;
  bh_agree a a' b b' p :
    m a = (Ok tt, a') → m b = (Ok tt, b') → a !! p = b !! p → a' !! p = b' !! p;
  bh_transfer a a' b :
    rel R a b → m a = (Ok tt, a') → ∃ b', m b = (Ok tt, b') ∧ rel R a' b';
}.

(** The paths a node at [target] writes: the directories leading to the
    target, the target, and what the node declares below it. *)
Definition T_item (item : DirectoryItem) (target : path) (p : path) : Prop :=
  p ∈ prefixes target ∨ ∃ q, q ∈ itemPaths [] item ∧ p = target ++ q.

Definition declares (directory : Directory) (baseDir : path) (p : path) : Prop :=
  p ∈ prefixes baseDir ∨ ∃ q, q ∈ nodePaths [] directory ∧ p = baseDir ++ q.

(** What [writeFixtures] does to the disk when it targets [baseDir]: the
    generations of the lineage, oldest first. *)
Fixpoint replay (iff : CreateIFFResult) (baseDir : path) : M FS unit :=
  match cl_prevIFF iff with
  | Some prevIFF => replay prevIFF baseDir
  | None => mret tt
  end ;;
  createIFFImpl (cl_directory iff) baseDir.

(** The calls it makes. *)
Fixpoint replayLog (iff : CreateIFFResult) (target : string) : list Event :=
  match cl_prevIFF iff with
  | Some prevIFF => replayLog prevIFF target
  | None => []
  end ++ [EvCreateIFFImpl (cl_directory iff) target].

(** The relative paths declared by any generation of the lineage. *)
Fixpoint lineagePaths (iff : CreateIFFResult) : list path :=
  match cl_prevIFF iff with
  | Some prevIFF => lineagePaths prevIFF
  | None => []
  end ++ nodePaths [] (cl_directory iff).

Definition lineage_declares (iff : CreateIFFResult) (baseDir : path) (p : path) : Prop :=
  p ∈ prefixes baseDir ∨ ∃ q, q ∈ lineagePaths iff ∧ p = baseDir ++ q.

(** The root directory a call ends up with, and how many times it asks the
    generator. *)
Definition chosenRootDir (opts : DefineIFFCreatorOptions)
    (options : option CreateIFFOptions) (w : World) : string :=
  match options ≫= overrideRootDir with
  | Some dir => dir
  | None => generateRootDir opts (generated w)
  end.

Definition invocations (options : option CreateIFFOptions) : nat :=
  match options ≫= overrideRootDir with
  | Some _ => 0
  | None => 1
  end.

(** The object [createIFF] builds once the root directory is known. *)
Definition builtHandle (opts : DefineIFFCreatorOptions) (directory : Directory)
    (options : option CreateIFFOptions) (prevIFF : option CreateIFFResult)
    (dir : string) : CreateIFFResult :=
  {| rootDir := if unixStyle opts then slash dir else dir;
     paths := spread (changeRootDirOfPaths (from_option paths [] prevIFF) dir (unixStyle opts))
                     (getPaths directory dir (unixStyle opts));
     cl_directory := directory;
     cl_rootDir := dir;
     cl_options := options;
     cl_prevIFF := prevIFF |}.



(** ** Sample data *)

Definition emptyWorld : World := {| disk := ∅; generated := 0; log := [] |}.

Definition sampleOptions : DefineIFFCreatorOptions :=
  {| generateRootDir := λ n, "/tmp/fixtures/" +:+ String (ascii_of_nat (97 + n)) "";
     unixStylePath := None |}.

Definition at_ (dir : string) : option CreateIFFOptions :=
  Some {| overrideRootDir := Some dir |}.

(** The fixtures of the package's own tests. *)
Definition sampleDirectory : Directory :=
  [("a.txt", FileItem "a"); ("b", DirItem [("a.txt", FileItem "b-a")])].

Definition sampleAddition : Directory :=
  [("b", DirItem [("b.txt", FileItem "b-b")]); ("c.txt", FileItem "c")].

(** The handle of [sampleDirectory] at the first generated root directory. *)
Definition sampleBase : CreateIFFResult :=
  builtHandle sampleOptions sampleDirectory None None "/tmp/fixtures/a".

(** The world once that handle has been created on an empty disk, the
    handle [addFixtures] then returns for [sampleAddition], and the world
    after that call. *)
Definition sampleWorld : World :=
  (createIFF sampleOptions sampleDirectory None None emptyWorld).2.

Definition sampleAdded : CreateIFFResult :=
  builtHandle sampleOptions sampleAddition (at_ "/tmp/fixtures/a") (Some sampleBase)
    "/tmp/fixtures/a".

Definition sampleAddedWorld : World :=
  (addFixtures sampleOptions sampleBase sampleAddition sampleWorld).2.

(** ** Nodes and tables *)


(** Every value of the table is the absolute path of its key under
    [rootDir]. *)
Definition table_at (rootDir : string) (unixStylePath : bool) (t : Table) : Prop :=
  Forall (λ kv, kv.2 = absolute rootDir unixStylePath kv.1) t.


(** * Properties *)

(** ** Strings and segments *)

Lemma eqb_sep c : Ascii.eqb c sep = bool_decide (c = sep).
Proof.
  destruct (Ascii.eqb_spec c sep) as [->|Hne].
  - by rewrite bool_decide_eq_true_2.
  - by rewrite bool_decide_eq_false_2.
Qed.

Lemma split_nonempty s : split s ≠ [].
Proof. destruct s as [|c r]; simpl; [done|]. destruct (Ascii.eqb c sep), (split r); done. Qed.

Lemma split_no_sep s : Forall no_sep (split s).
Proof.
  induction s as [|c r IH]; simpl.
  - by repeat constructor.
  - destruct (Ascii.eqb_spec c sep) as [->|Hne].
    + by constructor.
    + destruct (split r) as [|h t]; [by repeat constructor|].
      inversion IH; subst. by repeat constructor.
Qed.

Lemma split_single s : no_sep s → split s = [s].
Proof.
  induction s as [|c r IH]; simpl; [done|]. intros [Hc Hr].
  destruct (Ascii.eqb_spec c sep); [done|]. by rewrite IH.
Qed.

Lemma split_glue a r : no_sep a → split (a +:+ String sep r) = a :: split r.
Proof.
  induction a as [|c a IH]; simpl.
  - intros _. reflexivity.
  - intros [Hc Ha]. destruct (Ascii.eqb_spec c sep); [done|]. by rewrite IH.
Qed.

Lemma split_render l : l ≠ [] → Forall no_sep l → split (render l) = l.
Proof.
  induction l as [|a l IH]; [done|]. intros _ Hl.
  inversion Hl as [|? ? Ha Hl']; subst.
  destruct l as [|b l]; simpl.
  - by apply split_single.
  - change (split (a +:+ String sep (render (b :: l))) = a :: b :: l).
    rewrite split_glue by done. f_equal. by apply IH.
Qed.

Lemma segments_segment s : Forall segment (segments s).
Proof.
  unfold segments. apply Forall_forall. intros x Hx.
  apply list_elem_of_filter in Hx as [Hne Hin]. split; [done|].
  by eapply (proj1 (Forall_forall _ _) (split_no_sep s)).
Qed.

Lemma filter_Forall_id {A} (P : A → Prop) `{!∀ x, Decision (P x)} (l : list A) :
  Forall P l → filter P l = l.
Proof.
  induction 1 as [|x l Hx Hl IH]; [done|]. by rewrite filter_cons_True, IH.
Qed.

Lemma filter_ext_elem {A} (P1 P2 : A → Prop)
    `{!∀ x, Decision (P1 x), !∀ x, Decision (P2 x)} (l : list A) :
  (∀ x, x ∈ l → P1 x ↔ P2 x) → filter P1 l = filter P2 l.
Proof.
  induction l as [|a l IH]; intros Hiff; [done|].
  rewrite !filter_cons, IH by (intros x Hx; apply Hiff; by right).
  pose proof (Hiff a (list_elem_of_here _ _)) as Ha.
  destruct (decide (P1 a)), (decide (P2 a)); tauto || done.
Qed.

Lemma segments_render l : Forall segment l → segments (render l) = l.
Proof.
  intros Hl. destruct (decide (l = [])) as [->|Hne]; [done|].
  unfold segments. rewrite split_render.
  - apply filter_Forall_id. eapply Forall_impl; [done|]. by intros x [? ?].
  - done.
  - eapply Forall_impl; [done|]. by intros x [? ?].
Qed.

Lemma render_inj l1 l2 :
  Forall segment l1 → Forall segment l2 → render l1 = render l2 → l1 = l2.
Proof.
  intros H1 H2 Heq.
  by rewrite <-(segments_render l1), <-(segments_render l2), Heq.
Qed.

(** ** Prefixes *)

Lemma elem_of_prefixes {A} (l q : list A) :
  q ∈ prefixes l ↔ q ≠ [] ∧ q `prefix_of` l.
Proof.
  revert q. induction l as [|x l IH]; intros q; simpl.
  - split; [by intros ?%elem_of_nil|]. intros [Hne Hp].
    by apply prefix_nil_inv in Hp.
  - rewrite elem_of_cons, list_elem_of_fmap. split.
    + intros [->|(q' & -> & Hq')].
      * split; [done|]. by apply prefix_cons, prefix_nil.
      * apply IH in Hq' as [_ Hp]. split; [done|]. by apply prefix_cons.
    + intros [Hne Hp]. destruct q as [|y q]; [done|].
      apply prefix_cons_inv_1 in Hp as Hxy. subst y.
      apply prefix_cons_inv_2 in Hp.
      destruct q as [|z q]; [by left|]. right.
      exists (z :: q). split; [done|]. apply IH. by split.
Qed.

Lemma prefixes_snoc {A} (l : list A) x : prefixes (l ++ [x]) = prefixes l ++ [l ++ [x]].
Proof.
  induction l as [|y l IH]; simpl; [done|].
  by rewrite IH, map_app.
Qed.

Lemma dirname_snoc (p : path) s : dirname (p ++ [s]) = p.
Proof. apply removelast_last. Qed.

Lemma prefixes_app {A} (l1 l2 q : list A) :
  q ∈ prefixes (l1 ++ l2) ↔ q ∈ prefixes l1 ∨ ∃ q', q' ∈ prefixes l2 ∧ q = l1 ++ q'.
Proof.
  rewrite !elem_of_prefixes. split.
  - intros [Hne Hp]. destruct (prefix_weak_total q l1 (l1 ++ l2)) as [Hq|Hq];
      [done|by apply prefix_app_r|by left|].
    destruct Hq as [q' ->]. destruct q' as [|x q'].
    + left. rewrite app_nil_r in *. done.
    + right. exists (x :: q'). rewrite elem_of_prefixes.
      split; [|done]. split; [done|]. by apply prefix_app_inv in Hp.
  - intros [[Hne Hp]|(q' & [Hne Hp]%elem_of_prefixes & ->)].
    + split; [done|]. by apply prefix_app_r.
    + split; [by destruct l1, q'|]. by apply prefix_app.
Qed.

(** ** The monad *)

Lemma bind_run {S A B} (m : M S A) (f : A → M S B) s :
  (m ≫= f) s =
  match m s with
  | (Ok a, s') => f a s'
  | (Err e, s') => (Err e, s')
  end.
Proof. reflexivity. Qed.

Lemma bind_Ok {S A B} (m : M S A) (f : A → M S B) s b s' :
  (m ≫= f) s = (Ok b, s') ↔ ∃ a s1, m s = (Ok a, s1) ∧ f a s1 = (Ok b, s').
Proof.
  rewrite bind_run. destruct (m s) as [[a|e] s1]; split.
  - intros H. by exists a, s1.
  - by intros (a' & s1' & [= -> ->] & H).
  - done.
  - by intros (a' & s1' & [=] & _).
Qed.

(** ** Computations on the disk are well behaved *)

Lemma Behaved_ret R : Behaved R (λ _, False) (mret tt).
Proof.
  split.
  - by intros a r a' p [= <- <-].
  - by intros a r a' p [= <- <-].
  - done.
  - by intros a a' b b' p [= <-] [= <-].
  - intros a a' b Hab [= <-]. by exists b.
Qed.

Lemma Behaved_bind R T1 T2 m1 m2 :
  Behaved R T1 m1 → Behaved R T2 m2 →
  Behaved R (λ p, T1 p ∨ T2 p) (m1 ;; m2).
Proof.
  intros H1 H2. split.
  - intros a r a' p Hrun Hp. rewrite bind_run in Hrun.
    destruct (m1 a) as [[[]|e] a1] eqn:E1.
    + rewrite (bh_frame _ _ _ H2 _ _ _ _ Hrun), (bh_frame _ _ _ H1 _ _ _ _ E1); tauto.
    + injection Hrun as <- <-. apply (bh_frame _ _ _ H1 _ _ _ _ E1). tauto.
  - intros a r a' p Hrun Hp. rewrite bind_run in Hrun.
    destruct (m1 a) as [[[]|e] a1] eqn:E1.
    + eapply (bh_dirs _ _ _ H2); [done|]. by eapply (bh_dirs _ _ _ H1).
    + injection Hrun as <- <-. by eapply (bh_dirs _ _ _ H1).
  - intros a a' b b' p ([] & a1 & Ea1 & Ea')%bind_Ok ([] & b1 & Eb1 & Eb')%bind_Ok Hp.
    destruct Hp as [Hp|Hp].
    + eapply (bh_agree _ _ _ H2); [done..|]. by eapply (bh_sets _ _ _ H1).
    + by eapply (bh_sets _ _ _ H2).
  - intros a a' b b' p ([] & a1 & Ea1 & Ea')%bind_Ok ([] & b1 & Eb1 & Eb')%bind_Ok Hp.
    eapply (bh_agree _ _ _ H2); [done..|]. by eapply (bh_agree _ _ _ H1).
  - intros a a' b Hab ([] & a1 & Ea1 & Ea')%bind_Ok.
    destruct (bh_transfer _ _ _ H1 _ _ _ Hab Ea1) as (b1 & Eb1 & Hab1).
    destruct (bh_transfer _ _ _ H2 _ _ _ Hab1 Ea') as (b' & Eb' & Hab').
    exists b'. split; [|done]. apply bind_Ok. by exists tt, b1.
Qed.

Lemma Behaved_iff R T T' m :
  (∀ p, T p ↔ T' p) → Behaved R T m → Behaved R T' m.
Proof.
  intros HT H. split.
  - intros a r a' p Hrun Hp. apply (bh_frame _ _ _ H _ _ _ _ Hrun). by rewrite HT.
  - apply (bh_dirs _ _ _ H).
  - intros a a' b b' p Ha Hb Hp. apply (bh_sets _ _ _ H _ _ _ _ _ Ha Hb). by rewrite HT.
  - apply (bh_agree _ _ _ H).
  - apply (bh_transfer _ _ _ H).
Qed.

Lemma rel_insert R a b q e : rel R a b → rel R (<[q := e]> a) (<[q := e]> b).
Proof.
  intros Hab p. destruct (decide (q = p)) as [->|Hne].
  - left. by rewrite !lookup_insert_eq.
  - rewrite !lookup_insert_ne by done. apply Hab.
Qed.

(** [mkdir] with [recursive]: the directories it makes are the non-empty
    prefixes of what is left of the path. *)
Lemma Behaved_mkdir_from R rest : ∀ base,
  Behaved R (λ p, ∃ q, q ∈ prefixes rest ∧ p = base ++ q) (mkdir_from base rest).
Proof.
  induction rest as [|s rest IH]; intros base.
  - eapply Behaved_iff; [|apply Behaved_ret]. intros p; split; [done|].
    by intros (q & ?%elem_of_nil & _).
  - specialize (IH (base ++ [s])).
    assert (Hstep : ∀ p, (∃ q, q ∈ prefixes (s :: rest) ∧ p = base ++ q) ↔
      p = base ++ [s] ∨ ∃ q, q ∈ prefixes rest ∧ p = (base ++ [s]) ++ q).
    { intros p. simpl. split.
      - intros (q & [->|(q' & -> & Hq')%list_elem_of_fmap]%elem_of_cons & ->); [by left|].
        right. exists q'. by rewrite <-app_assoc.
      - intros [->|(q & Hq & ->)].
        + exists [s]. split; [by left|done].
        + exists (s :: q). rewrite <-app_assoc. split; [|done].
          right. apply list_elem_of_fmap. by exists q. }
    assert (Hfresh : ¬ ∃ q, q ∈ prefixes rest ∧ base ++ [s] = (base ++ [s]) ++ q).
    { intros (q & [Hne _]%elem_of_prefixes & Heq).
      apply (f_equal length) in Heq. rewrite !length_app in Heq.
      destruct q; simpl in *; [done|lia]. }
    split.
    + intros a r a' p Hrun Hp. simpl in Hrun. rewrite Hstep in Hp.
      destruct (a !! (base ++ [s])) as [[c|]|] eqn:E;
        [by injection Hrun as <- <-|..];
        (rewrite (bh_frame _ _ _ IH _ _ _ _ Hrun) by tauto;
         apply lookup_insert_ne; intros Heq; apply Hp; by left).
    + intros a r a' p Hrun Hp. simpl in Hrun.
      destruct (a !! (base ++ [s])) as [[c|]|] eqn:E;
        [by injection Hrun as <- <-|..];
        (eapply (bh_dirs _ _ _ IH); [done|];
         destruct (decide (base ++ [s] = p)) as [->|Hne];
         [by rewrite lookup_insert_eq|by rewrite lookup_insert_ne]).
    + intros a a' b b' p Ha Hb Hp. simpl in Ha, Hb. rewrite Hstep in Hp.
      assert (∃ a1 b1, mkdir_from (base ++ [s]) rest (<[base ++ [s] := Dir]> a1) = (Ok tt, a')
        ∧ mkdir_from (base ++ [s]) rest (<[base ++ [s] := Dir]> b1) = (Ok tt, b'))
        as (a1 & b1 & Ha1 & Hb1).
      { exists a, b. split.
        - destruct (a !! (base ++ [s])) as [[c|]|]; done.
        - destruct (b !! (base ++ [s])) as [[c|]|]; done. }
      destruct Hp as [->|Hp].
      * rewrite (bh_frame _ _ _ IH _ _ _ _ Ha1), (bh_frame _ _ _ IH _ _ _ _ Hb1) by done.
        by rewrite !lookup_insert_eq.
      * by eapply (bh_sets _ _ _ IH).
    + intros a a' b b' p Ha Hb Hp. simpl in Ha, Hb.
      assert (mkdir_from (base ++ [s]) rest (<[base ++ [s] := Dir]> a) = (Ok tt, a')) as Ha1
        by (destruct (a !! (base ++ [s])) as [[c|]|]; done).
      assert (mkdir_from (base ++ [s]) rest (<[base ++ [s] := Dir]> b) = (Ok tt, b')) as Hb1
        by (destruct (b !! (base ++ [s])) as [[c|]|]; done).
      eapply (bh_agree _ _ _ IH); [done..|].
      destruct (decide (base ++ [s] = p)) as [->|Hne].
      * by rewrite !lookup_insert_eq.
      * by rewrite !lookup_insert_ne.
    + intros a a' b Hab Ha. simpl in Ha |- *.
      assert (mkdir_from (base ++ [s]) rest (<[base ++ [s] := Dir]> a) = (Ok tt, a')
              ∧ ∀ c, a !! (base ++ [s]) ≠ Some (File c)) as [Ha1 Hnf]
        by (destruct (a !! (base ++ [s])) as [[c|]|]; done).
      destruct (bh_transfer _ _ _ IH _ _ _ (rel_insert _ _ _ (base ++ [s]) Dir Hab) Ha1)
        as (b' & Hb' & Hab').
      exists b'. split; [|done].
      destruct (Hab (base ++ [s])) as [Heq|[[_ Heq]|[_ Heq]]].
      * rewrite <-Heq. destruct (a !! (base ++ [s])) as [[c|]|] eqn:E; [by destruct (Hnf c)|done..].
      * by rewrite Heq.
      * by rewrite Heq.
Qed.

Lemma Behaved_mkdir_p R q : Behaved R (λ p, p ∈ prefixes q) (mkdir_p q).
Proof.
  eapply Behaved_iff; [|apply (Behaved_mkdir_from R q [])].
  intros p. simpl. split; [by intros (? & ? & ->)|]. intros ?. by exists p.
Qed.

Lemma mkdir_from_made rest : ∀ base a a' q,
  mkdir_from base rest a = (Ok tt, a') → q ∈ prefixes rest → a' !! (base ++ q) = Some Dir.
Proof.
  induction rest as [|s rest IH]; intros base a a' q Hrun Hq; [by apply elem_of_nil in Hq|].
  simpl in Hrun, Hq.
  assert (mkdir_from (base ++ [s]) rest (<[base ++ [s] := Dir]> a) = (Ok tt, a')) as Hrun'
    by (destruct (a !! (base ++ [s])) as [[c|]|]; done).
  apply elem_of_cons in Hq as [->|(q' & -> & Hq')%list_elem_of_fmap].
  - eapply (bh_dirs _ _ _ (Behaved_mkdir_from [] rest (base ++ [s]))); [done|].
    by rewrite lookup_insert_eq.
  - rewrite (cons_middle s), app_assoc. by eapply IH.
Qed.

Lemma walk_dirs fs rest : ∀ base,
  (∀ q, q ∈ prefixes rest → fs !! (base ++ q) = Some Dir) → walk fs base rest = Ok Dir.
Proof.
  induction rest as [|s rest IH]; intros base H; [done|]. simpl.
  rewrite (H [s]) by (by left). apply IH. intros q Hq.
  rewrite <-app_assoc. apply H. simpl. right. apply list_elem_of_fmap. by exists q.
Qed.

Lemma mkdir_p_lstat q a a' : mkdir_p q a = (Ok tt, a') → lstat a' q = Ok Dir.
Proof.
  intros Hrun. apply walk_dirs. intros q' Hq'. by eapply mkdir_from_made.
Qed.

Lemma dirname_prefix (t : path) : dirname t `prefix_of` t.
Proof.
  destruct t as [|x t] using rev_ind; [done|].
  rewrite dirname_snoc. by apply prefix_app_r.
Qed.

Lemma prefixes_dirname (t q : path) :
  q ∈ prefixes t ↔ q ∈ prefixes (dirname t) ∨ (q = t ∧ t ≠ []).
Proof.
  destruct t as [|x t _] using rev_ind.
  - simpl. split; [by intros ?%elem_of_nil|]. by intros [?%elem_of_nil|[_ ?]].
  - rewrite dirname_snoc, prefixes_snoc, elem_of_app, list_elem_of_singleton.
    split; (intros [?|?]; [by left|right]).
    + split; [done|]. intros Heq. apply (f_equal length) in Heq.
      rewrite length_app in Heq. simpl in Heq. lia.
    + tauto.
Qed.

Lemma prefixes_dirname_ne (t q : path) : q ∈ prefixes (dirname t) → q ≠ t.
Proof.
  intros [Hne Hq]%elem_of_prefixes ->.
  destruct t as [|x t _] using rev_ind; [done|].
  rewrite dirname_snoc in Hq. apply prefix_length in Hq.
  rewrite length_app in Hq. simpl in Hq. lia.
Qed.

Lemma writeFile_inv t c a r a' :
  writeFile t c a = (r, a') →
  (a' = a ∧ ∃ e, r = Err e)
  ∨ (r = Ok tt ∧ a' = <[t := File c]> a ∧ t ≠ []
     ∧ lstat a (dirname t) = Ok Dir ∧ a !! t ≠ Some Dir).
Proof.
  unfold writeFile. destruct (lstat a (dirname t)) as [[c'|]|e].
  - intros [= <- <-]. left. eauto.
  - destruct t as [|x t]; [intros [= <- <-]; left; eauto|].
    destruct (a !! (x :: t)) as [[c'|]|] eqn:E; intros [= <- <-];
      [right|left; eauto|right]; by rewrite ?E.
  - intros [= <- <-]. left. eauto.
Qed.

Lemma writeFile_run t c a :
  t ≠ [] → lstat a (dirname t) = Ok Dir → a !! t ≠ Some Dir →
  writeFile t c a = (Ok tt, <[t := File c]> a).
Proof.
  intros Ht Hd Hn. unfold writeFile. rewrite Hd.
  destruct t as [|x t]; [done|]. by destruct (a !! (x :: t)) as [[c'|]|].
Qed.

(** A file leaf: the directories above the target, then the file. *)
Lemma Behaved_file R t c :
  R `prefix_of` t → Behaved R (λ p, p ∈ prefixes t) (createNode (FileItem c) t).
Proof.
  intros HR. pose proof (Behaved_mkdir_p R (dirname t)) as Hmk.
  change (createNode (FileItem c) t) with (mkdir_p (dirname t) ;; writeFile t c).
  split.
  - intros a r a' p Hrun Hp. rewrite bind_run in Hrun.
    rewrite prefixes_dirname in Hp.
    destruct (mkdir_p (dirname t) a) as [[[]|e] a1] eqn:E1.
    + rewrite <-(bh_frame _ _ _ Hmk _ _ _ _ E1) by tauto.
      apply writeFile_inv in Hrun as [[-> _]|(_ & -> & Ht & _)]; [done|].
      apply lookup_insert_ne. intros <-. tauto.
    + injection Hrun as <- <-. apply (bh_frame _ _ _ Hmk _ _ _ _ E1). tauto.
  - intros a r a' p Hrun Hp. rewrite bind_run in Hrun.
    destruct (mkdir_p (dirname t) a) as [[[]|e] a1] eqn:E1.
    + pose proof (bh_dirs _ _ _ Hmk _ _ _ _ E1 Hp) as Hp1.
      apply writeFile_inv in Hrun as [[-> _]|(_ & -> & Ht & _ & Hn)]; [done|].
      rewrite lookup_insert_ne; [done|]. by intros <-.
    + injection Hrun as <- <-. by eapply (bh_dirs _ _ _ Hmk).
  - intros a a' b b' p ([] & a1 & Ea1 & Ea')%bind_Ok ([] & b1 & Eb1 & Eb')%bind_Ok Hp.
    apply writeFile_inv in Ea' as [[_ [e [=]]]|(_ & -> & _)].
    apply writeFile_inv in Eb' as [[_ [e [=]]]|(_ & -> & _)].
    apply prefixes_dirname in Hp as [Hp|[-> _]].
    + rewrite !lookup_insert_ne by (by apply not_eq_sym, prefixes_dirname_ne).
      by eapply (bh_sets _ _ _ Hmk).
    + by rewrite !lookup_insert_eq.
  - intros a a' b b' p ([] & a1 & Ea1 & Ea')%bind_Ok ([] & b1 & Eb1 & Eb')%bind_Ok Hp.
    apply writeFile_inv in Ea' as [[_ [e [=]]]|(_ & -> & _)].
    apply writeFile_inv in Eb' as [[_ [e [=]]]|(_ & -> & _)].
    pose proof (bh_agree _ _ _ Hmk _ _ _ _ _ Ea1 Eb1 Hp) as Hp1.
    destruct (decide (t = p)) as [->|Hne].
    + by rewrite !lookup_insert_eq.
    + by rewrite !lookup_insert_ne.
  - intros a a' b Hab ([] & a1 & Ea1 & Ea')%bind_Ok.
    destruct (bh_transfer _ _ _ Hmk _ _ _ Hab Ea1) as (b1 & Eb1 & Hab1).
    apply writeFile_inv in Ea' as [[_ [e [=]]]|(_ & -> & Ht & _ & Hn)].
    exists (<[t := File c]> b1). split; [|by apply rel_insert].
    apply bind_Ok. exists tt, b1. split; [done|].
    apply writeFile_run; [done|by eapply mkdir_p_lstat|].
    destruct (Hab1 t) as [Heq|[[_ Heq]|[Hno _]]]; [by rewrite <-Heq|by rewrite Heq|done].
Qed.

(** ** Specifications as trees *)

Lemma DirectoryItem_nested_ind (P : DirectoryItem → Prop) :
  (∀ content, P (FileItem content)) →
  (∀ sub, Forall (λ kv, P kv.2) sub → P (DirItem sub)) →
  ∀ item, P item.
Proof.
  intros HF HD. fix IH 1. intros [content|sub]; [apply HF|]. apply HD.
  induction sub as [|[name child] sub IHsub]; constructor; [apply IH|apply IHsub].
Qed.

Lemma createNode_dir sub target :
  createNode (DirItem sub) target = (mkdir_p target ;; forEach (createItem target) sub).
Proof.
  simpl. f_equal. induction sub as [|[name child] sub IH]; [done|].
  simpl. unfold createItem at 1. simpl. by rewrite IH.
Qed.

Lemma itemPaths_dir pre sub :
  itemPaths pre (DirItem sub) =
  mjoin (map (λ kv, map (app pre) (prefixes (segments kv.1))
                     ++ itemPaths (pre ++ segments kv.1) kv.2) sub).
Proof.
  simpl. induction sub as [|[name child] sub IH]; [done|].
  simpl. by rewrite IH, app_assoc.
Qed.

Lemma itemPaths_shift item : ∀ pre,
  itemPaths pre item = map (app pre) (itemPaths [] item).
Proof.
  induction item as [content|sub IH] using DirectoryItem_nested_ind; intros pre; [done|].
  rewrite !itemPaths_dir. induction IH as [|[name child] sub Hc _ IHsub]; [done|].
  simpl in *. rewrite !map_app, IHsub. f_equal. f_equal.
  - rewrite map_map. by apply map_ext.
  - rewrite (Hc (pre ++ segments name)), (Hc (segments name)), map_map.
    apply map_ext. intros q. by rewrite app_assoc.
Qed.

Lemma elem_of_itemPaths_dir pre sub q :
  q ∈ itemPaths pre (DirItem sub) ↔
  ∃ kv, kv ∈ sub ∧ ((∃ q', q' ∈ prefixes (segments kv.1) ∧ q = pre ++ q')
                    ∨ q ∈ itemPaths (pre ++ segments kv.1) kv.2).
Proof.
  rewrite itemPaths_dir, list_elem_of_join. split.
  - intros (l & Hq & (kv & -> & Hkv)%list_elem_of_fmap). exists kv. split; [done|].
    apply elem_of_app in Hq as [(q' & -> & Hq')%list_elem_of_fmap|Hq]; [left|right]; eauto.
  - intros (kv & Hkv & Hq). eexists. split; [|apply list_elem_of_fmap; by exists kv].
    apply elem_of_app. destruct Hq as [(q' & Hq' & ->)|Hq]; [left|by right].
    apply list_elem_of_fmap. by exists q'.
Qed.

Lemma T_item_dir sub target p :
  T_item (DirItem sub) target p ↔
  p ∈ prefixes target ∨ ∃ kv, kv ∈ sub ∧ T_item kv.2 (target ++ segments kv.1) p.
Proof.
  unfold T_item. split.
  - intros [Hp|(q & Hq & ->)]; [by left|]. right.
    apply elem_of_itemPaths_dir in Hq as (kv & Hkv & Hq). exists kv. split; [done|].
    destruct Hq as [(q' & Hq' & ->)|Hq].
    + left. apply prefixes_app. right. by exists q'.
    + right. rewrite itemPaths_shift in Hq.
      apply list_elem_of_fmap in Hq as (q' & -> & Hq').
      exists q'. split; [done|]. simpl. by rewrite app_assoc.
  - intros [Hp|(kv & Hkv & [Hp|(q & Hq & ->)])]; [by left|..].
    + apply prefixes_app in Hp as [Hp|(q' & Hq' & ->)]; [by left|]. right.
      exists q'. split; [|done]. apply elem_of_itemPaths_dir. exists kv. split; [done|].
      left. by exists q'.
    + right. exists (segments kv.1 ++ q). split; [|by rewrite app_assoc].
      apply elem_of_itemPaths_dir. exists kv. split; [done|]. right.
      rewrite itemPaths_shift. apply list_elem_of_fmap. by exists q.
Qed.

Lemma Behaved_forEach {A} (R : path) (T : A → path → Prop) (f : A → M FS unit) l :
  Forall (λ x, Behaved R (T x) (f x)) l →
  Behaved R (λ p, ∃ x, x ∈ l ∧ T x p) (forEach f l).
Proof.
  induction 1 as [|x l Hx _ IH]; simpl.
  - eapply Behaved_iff; [|apply Behaved_ret]. intros p. split; [done|].
    by intros (x & ?%elem_of_nil & _).
  - eapply Behaved_iff; [|by apply Behaved_bind]. intros p. simpl. split.
    + intros [Hp|(y & Hy & Hp)]; [exists x|exists y]; split; try done; [by left|by right].
    + intros (y & [->|Hy]%elem_of_cons & Hp); [by left|right; eauto].
Qed.

Lemma Behaved_createNode R item : ∀ target,
  R `prefix_of` target → Behaved R (T_item item target) (createNode item target).
Proof.
  induction item as [content|sub IH] using DirectoryItem_nested_ind; intros target HR.
  - eapply Behaved_iff; [|by apply Behaved_file]. intros p. unfold T_item. simpl.
    split; [by left|]. by intros [?|(q & ?%elem_of_nil & _)].
  - rewrite createNode_dir. eapply Behaved_iff.
    { intros p. symmetry. apply T_item_dir. }
    apply Behaved_bind; [apply Behaved_mkdir_p|].
    apply (Behaved_forEach R (λ kv, T_item kv.2 (target ++ segments kv.1))).
    eapply Forall_impl; [exact IH|]. intros kv Hkv. apply Hkv. by apply prefix_app_r.
Qed.

Lemma Behaved_createIFFImpl R directory baseDir :
  R `prefix_of` baseDir →
  Behaved R (declares directory baseDir) (createIFFImpl directory baseDir).
Proof. apply (Behaved_createNode R (DirItem directory)). Qed.

(** ** Lineages *)

Lemma CreateIFFResult_lineage_ind (P : CreateIFFResult → Prop) :
  (∀ iff, (∀ prev, cl_prevIFF iff = Some prev → P prev) → P iff) →
  ∀ iff, P iff.
Proof.
  intros H. fix IH 1. intros [r t d c o [prev|]]; apply H; simpl.
  - intros prev' [= <-]. apply IH.
  - by intros prev' [=].
Qed.

Lemma replay_eq iff baseDir :
  replay iff baseDir =
  (match cl_prevIFF iff with
   | Some prevIFF => replay prevIFF baseDir
   | None => mret tt
   end ;; createIFFImpl (cl_directory iff) baseDir).
Proof. by destruct iff. Qed.

Lemma lineagePaths_eq iff :
  lineagePaths iff =
  match cl_prevIFF iff with
  | Some prevIFF => lineagePaths prevIFF
  | None => []
  end ++ nodePaths [] (cl_directory iff).
Proof. by destruct iff. Qed.

Lemma replayLog_eq iff target :
  replayLog iff target =
  match cl_prevIFF iff with
  | Some prevIFF => replayLog prevIFF target
  | None => []
  end ++ [EvCreateIFFImpl (cl_directory iff) target].
Proof. by destruct iff. Qed.



Lemma Behaved_replay R baseDir iff :
  R `prefix_of` baseDir → Behaved R (lineage_declares iff baseDir) (replay iff baseDir).
Proof.
  intros HR. induction iff as [iff IH] using CreateIFFResult_lineage_ind.
  rewrite replay_eq. unfold lineage_declares. rewrite lineagePaths_eq.
  destruct (cl_prevIFF iff) as [prev|].
  - eapply Behaved_iff;
      [|apply Behaved_bind; [by apply IH|by apply Behaved_createIFFImpl]].
    intros p. unfold lineage_declares, declares. setoid_rewrite elem_of_app.
    split.
    + intros [[?|(q & ? & ->)]|[?|(q & ? & ->)]]; eauto.
    + intros [?|(q & [?|?] & ->)]; eauto.
  - eapply Behaved_iff;
      [|apply Behaved_bind; [apply Behaved_ret|by apply Behaved_createIFFImpl]].
    intros p. unfold declares. simpl. tauto.
Qed.

(** ** Calls on the world *)

Lemma io_run {A} (e : Event) (m : M FS A) (w : World) r w' :
  (record e ;; onDisk m) w = (r, w') ↔
  m (disk w) = (r, disk w') ∧ generated w' = generated w ∧ log w' = log w ++ [e].
Proof.
  rewrite bind_run. unfold record, onDisk. simpl.
  destruct (m (disk w)) as [r1 fs1]. split.
  - by intros [= <- <-].
  - intros ([= -> ->] & Hg & Hl). destruct w'; simpl in *. by subst.
Qed.

Lemma writeFixtures_eq iff overrideRoot :
  writeFixtures iff overrideRoot =
  (match cl_prevIFF iff with
   | Some prevIFF =>
       writeFixtures prevIFF (Some (default (cl_rootDir iff) overrideRoot))
   | None => mret tt
   end ;;
   call_createIFFImpl (cl_directory iff) (default (cl_rootDir iff) overrideRoot)).
Proof. by destruct iff. Qed.

(** [writeFixtures] replays the lineage on the disk, leaves the generator
    alone, and, when it succeeds, has made one [createIFFImpl] call per
    generation, oldest first, all at the same target. *)
Lemma writeFixtures_run iff : ∀ overrideRoot w r w',
  writeFixtures iff overrideRoot w = (r, w') →
  replay iff (segments (default (cl_rootDir iff) overrideRoot)) (disk w) = (r, disk w')
  ∧ generated w' = generated w
  ∧ (r = Ok tt →
     log w' = log w ++ replayLog iff (default (cl_rootDir iff) overrideRoot)).
Proof.
  induction iff as [iff IH] using CreateIFFResult_lineage_ind.
  intros o w r w'. rewrite writeFixtures_eq, replay_eq, replayLog_eq.
  set (target := default (cl_rootDir iff) o).
  rewrite !bind_run. destruct (cl_prevIFF iff) as [prev|].
  - destruct (writeFixtures prev (Some target) w) as [r1 w1] eqn:E1.
    apply (IH prev eq_refl) in E1 as (Hd & Hg & Hl). simpl in Hd, Hl. rewrite Hd.
    destruct r1 as [[]|e].
    + intros (Hd' & Hg' & Hl')%io_run. rewrite Hd'. split; [done|].
      split; [congruence|]. intros _. by rewrite Hl', Hl, app_assoc.
    + intros [= <- <-]. done.
  - simpl. intros (Hd' & Hg' & Hl')%io_run. by rewrite Hd'.
Qed.


(** ** Choosing the root directory and building the handle *)

Section index.
Variable opts : DefineIFFCreatorOptions.

Lemma chooseRootDir_run options w :
  ∃ w0, chooseRootDir opts options w = (Ok (chosenRootDir opts options w), w0)
        ∧ disk w0 = disk w ∧ log w0 = log w
        ∧ generated w0 = invocations options + generated w.
Proof.
  unfold chooseRootDir, chosenRootDir, invocations.
  destruct (options ≫= overrideRootDir) as [dir|]; eexists; (split; [reflexivity|done]).
Qed.

Lemma createIFF_run directory options prevIFF w r w' :
  createIFF opts directory options prevIFF w = (r, w') →
  let iff := builtHandle opts directory options prevIFF (chosenRootDir opts options w) in
  ∃ w0 rw,
    disk w0 = disk w ∧ log w0 = log w
    ∧ generated w0 = invocations options + generated w
    ∧ writeFixtures iff None w0 = (rw, w')
    ∧ r = match rw with Ok _ => Ok iff | Err e => Err e end.
Proof.
  intros Hrun. unfold createIFF in Hrun. rewrite bind_run in Hrun.
  destruct (chooseRootDir_run options w) as (w0 & E0 & Hd & Hl & Hg).
  rewrite E0 in Hrun. rewrite bind_run in Hrun. cbv zeta. unfold builtHandle.
  destruct (writeFixtures _ None w0) as [rw w1] eqn:E1.
  exists w0, rw. destruct rw as [[]|e]; by injection Hrun as <- <-.
Qed.

Lemma createIFF_Ok directory options prevIFF w iff w' :
  createIFF opts directory options prevIFF w = (Ok iff, w') →
  iff = builtHandle opts directory options prevIFF (chosenRootDir opts options w)
  ∧ replay iff (segments (cl_rootDir iff)) (disk w) = (Ok tt, disk w')
  ∧ generated w' = invocations options + generated w
  ∧ log w' = log w ++ replayLog iff (cl_rootDir iff).
Proof.
  intros (w0 & rw & Hd & Hl & Hg & Hw & Hr)%createIFF_run.
  destruct rw as [[]|e]; [|done]. injection Hr as ->.
  apply writeFixtures_run in Hw as (Hrep & Hg' & Hl'). simpl in *.
  rewrite Hd in Hrep. rewrite Hl' by done. rewrite Hg', Hg, Hl. done.
Qed.

End index.

(** ** Deleting *)

Lemma lookup_rm (p q : path) (fs : FS) :
  filter (λ kv : path * entry, ¬ p `prefix_of` kv.1) fs !! q =
  if decide (p `prefix_of` q) then None else fs !! q.
Proof.
  destruct (decide (p `prefix_of` q)) as [Hp|Hp].
  - apply map_lookup_filter_None. right. intros e _ Hn. by apply Hn.
  - destruct (fs !! q) as [e|] eqn:E.
    + by apply map_lookup_filter_Some.
    + apply map_lookup_filter_None. by left.
Qed.

Lemma fs_rm_inv p fs r fs' :
  fs_rm p fs = (r, fs') →
  (r = Ok tt ∧ fs' = filter (λ kv : path * entry, ¬ p `prefix_of` kv.1) fs)
  ∨ (fs' = fs ∧ ∃ e, r = Err e ∧ lstat fs p = Err e ∧ e ≠ FsError ENOENT).
Proof.
  unfold fs_rm. destruct (lstat fs p) as [e|[[]|m]] eqn:E; intros [= <- <-];
    first [by left | right; split; [done|]; eexists; by split].
Qed.

Lemma fs_rm_run p fs :
  (∀ e, lstat fs p = Err e → e = FsError ENOENT) →
  fs_rm p fs = (Ok tt, filter (λ kv : path * entry, ¬ p `prefix_of` kv.1) fs).
Proof.
  intros H. unfold fs_rm. destruct (lstat fs p) as [e|e] eqn:E; [done|].
  by rewrite (H e eq_refl).
Qed.

(** Once a path has been removed, resolving it finds nothing. *)
Lemma walk_rm p fs rest : ∀ base,
  base ++ rest = p → rest ≠ [] →
  (∀ e, walk fs base rest = Err e → e = FsError ENOENT) →
  walk (filter (λ kv : path * entry, ¬ p `prefix_of` kv.1) fs) base rest
  = Err (FsError ENOENT).
Proof.
  induction rest as [|s rest IH]; intros base Hp Hne Hw; [done|]. simpl in *.
  rewrite lookup_rm. destruct (decide (p `prefix_of` base ++ [s])) as [Hpre|Hpre]; [done|].
  destruct rest as [|s' rest].
  { destruct Hpre. by rewrite <-Hp. }
  destruct (fs !! (base ++ [s])) as [[c|]|]; [by specialize (Hw _ eq_refl)| |done].
  apply IH; [by rewrite <-app_assoc|done|done].
Qed.

Lemma lstat_rm p fs :
  p ≠ [] → (∀ e, lstat fs p = Err e → e = FsError ENOENT) →
  lstat (filter (λ kv : path * entry, ¬ p `prefix_of` kv.1) fs) p = Err (FsError ENOENT).
Proof. intros Hne H. by apply walk_rm. Qed.

Lemma filter_rm_idemp (p : path) (fs : FS) :
  filter (λ kv : path * entry, ¬ p `prefix_of` kv.1)
         (filter (λ kv : path * entry, ¬ p `prefix_of` kv.1) fs)
  = filter (λ kv : path * entry, ¬ p `prefix_of` kv.1) fs.
Proof.
  apply map_eq. intros q. rewrite !lookup_rm. by destruct (decide (p `prefix_of` q)).
Qed.

(** ** The handle's operations *)

Section operations.
Variable opts : DefineIFFCreatorOptions.

Lemma createIFF_generated directory options prevIFF w :
  generated (createIFF opts directory options prevIFF w).2
  = invocations options + generated w.
Proof.
  destruct (createIFF opts directory options prevIFF w) as [r w'] eqn:E.
  apply createIFF_run in E as (w0 & rw & _ & _ & Hg & Hw & _).
  apply writeFixtures_run in Hw as (_ & Hg' & _). simpl. congruence.
Qed.

(** The three ways a [fork] call can go. *)
Lemma fork_run iff additionalDirectory forkOptions w r w' :
  fork opts iff additionalDirectory forkOptions w = (r, w') →
  let newRootDir := chosenRootDir opts forkOptions w in
  ∃ w0, disk w0 = disk w ∧ log w0 = log w
    ∧ generated w0 = invocations forkOptions + generated w
    ∧ ((newRootDir = cl_rootDir iff
        ∧ r = Err (JsError sameRootDirMessage) ∧ w' = w0)
       ∨ (newRootDir ≠ cl_rootDir iff
          ∧ ∃ rc w1,
              createIFF opts additionalDirectory (at_ newRootDir) (Some iff) w0 = (rc, w1)
              ∧ match rc with
                | Err e => r = Err e ∧ w' = w1
                | Ok forkedIff =>
                    ∃ rcp, node_cp (cl_rootDir iff) newRootDir w1 = (rcp, w')
                           ∧ r = match rcp with
                                 | Ok _ => Ok forkedIff
                                 | Err e => Err e
                                 end
                end)).
Proof.
  intros Hrun newRootDir. unfold fork in Hrun. rewrite bind_run in Hrun.
  destruct (chooseRootDir_run opts forkOptions w) as (w0 & E0 & Hd & Hl & Hg).
  rewrite E0 in Hrun. fold newRootDir in Hrun.
  exists w0. do 3 (split; [done|]).
  destruct (decide (newRootDir = cl_rootDir iff)) as [Heq|Hne].
  - left. by injection Hrun as <- <-.
  - right. split; [done|]. rewrite bind_run in Hrun. unfold at_.
    destruct (createIFF opts additionalDirectory _ (Some iff) w0) as [[forked|e] w1] eqn:E1.
    + exists (Ok forked), w1. split; [done|]. rewrite bind_run in Hrun.
      destruct (node_cp (cl_rootDir iff) newRootDir w1) as [[[]|e] w2] eqn:E2;
        injection Hrun as <- <-; by eexists.
    + exists (Err e), w1. by injection Hrun as <- <-.
Qed.

Lemma node_cp_generated src dst w : generated (node_cp src dst w).2 = generated w.
Proof.
  destruct (node_cp src dst w) as [r w'] eqn:E.
  by apply io_run in E as (_ & Hg & _).
Qed.

Lemma fork_generated iff additionalDirectory forkOptions w :
  generated (fork opts iff additionalDirectory forkOptions w).2
  = invocations forkOptions + generated w.
Proof.
  destruct (fork opts iff additionalDirectory forkOptions w) as [r w'] eqn:E.
  apply fork_run in E as (w0 & _ & _ & Hg & [(_ & _ & ->)|(_ & rc & w1 & Hc & Hrest)]); [done|].
  simpl. pose proof (createIFF_generated additionalDirectory
    (at_ (chosenRootDir opts forkOptions w)) (Some iff) w0) as Hg1.
  rewrite Hc in Hg1. simpl in Hg1. destruct rc as [forked|e].
  - destruct Hrest as (rcp & Hcp & _).
    pose proof (node_cp_generated (cl_rootDir iff) (chosenRootDir opts forkOptions w) w1) as Hg2.
    rewrite Hcp in Hg2. simpl in Hg2. congruence.
  - destruct Hrest as [_ ->]. congruence.
Qed.

(** C8. When an override root directory is passed to [createIFF] or to
    [fork], the call does not invoke [generateRootDir]; without one it
    invokes it exactly once, whatever the outcome of the call. The root
    directory of a fork made without override is the answer the generator
    gives during that [fork] call: nothing is asked for, or kept, ahead
    of it. [addFixtures] never invokes the generator. *)
Theorem generateRootDir_once_unless_overridden
    directory options prevIFF iff additionalDirectory forkOptions w :
  generated (createIFF opts directory options prevIFF w).2
  = match options ≫= overrideRootDir with
    | Some _ => generated w
    | None => S (generated w)
    end
  ∧ generated (fork opts iff additionalDirectory forkOptions w).2
    = match forkOptions ≫= overrideRootDir with
      | Some _ => generated w
      | None => S (generated w)
      end
  ∧ (∀ forkedIff w',
       fork opts iff additionalDirectory forkOptions w = (Ok forkedIff, w') →
       cl_rootDir forkedIff
       = match forkOptions ≫= overrideRootDir with
         | Some dir => dir
         | None => generateRootDir opts (generated w)
         end)
  ∧ generated (addFixtures opts iff additionalDirectory w).2 = generated w.
Proof.
  split; [|split; [|split]].
  - rewrite createIFF_generated. unfold invocations.
    by destruct (options ≫= overrideRootDir).
  - rewrite fork_generated. unfold invocations.
    by destruct (forkOptions ≫= overrideRootDir).
  - intros forked w' (w0 & _ & _ & _ & [(_ & [=] & _)|(_ & rc & w1 & Hc & Hrest)])%fork_run.
    destruct rc as [forked'|e]; [|by destruct Hrest].
    destruct Hrest as (rcp & _ & Hr). destruct rcp as [[]|e]; [|done].
    injection Hr as ->. apply createIFF_Ok in Hc as (-> & _).
    simpl. unfold chosenRootDir.
    by destruct (forkOptions ≫= overrideRootDir).
  - unfold addFixtures. by rewrite createIFF_generated.
Qed.

(** C5. A [fork] whose new root directory, overridden or generated, is
    the root directory of the handle throws, and by then it has called
    nothing that touches the disk: the disk and the log of I/O calls are
    as they were. *)
Theorem fork_same_rootDir_rejected iff additionalDirectory forkOptions w :
  chosenRootDir opts forkOptions w = cl_rootDir iff →
  ∃ w', fork opts iff additionalDirectory forkOptions w
        = (Err (JsError sameRootDirMessage), w')
        ∧ disk w' = disk w ∧ log w' = log w.
Proof.
  intros Heq.
  destruct (fork opts iff additionalDirectory forkOptions w) as [r w'] eqn:E.
  apply fork_run in E as (w0 & Hd & Hl & _ & [(_ & -> & ->)|(Hne & _)]); [|done].
  by exists w0.
Qed.

End operations.

(** ** Teardown *)

Lemma rmRootDir_run iff w r w' :
  rmRootDir iff w = (r, w') ↔
  fs_rm (segments (cl_rootDir iff)) (disk w) = (r, disk w')
  ∧ generated w' = generated w ∧ log w' = log w ++ [EvRm (cl_rootDir iff)].
Proof. apply io_run. Qed.

Lemma rmRootDir_Ok iff w :
  (∀ e, lstat (disk w) (segments (cl_rootDir iff)) = Err e → e = FsError ENOENT) →
  ∃ w', rmRootDir iff w = (Ok tt, w')
        ∧ disk w' = filter (λ kv : path * entry, ¬ segments (cl_rootDir iff) `prefix_of` kv.1)
                           (disk w).
Proof.
  intros H. destruct (rmRootDir iff w) as [r w'] eqn:E.
  apply rmRootDir_run in E as E'. destruct E' as (Hrm & _).
  rewrite (fs_rm_run _ _ H) in Hrm. injection Hrm as <- Hd. by exists w'.
Qed.

(** C9. [rmRootDir] deletes the root directory and everything under it and
    nothing else; it succeeds when the root directory exists and when it is
    absent; and after one successful call a second call succeeds too and
    leaves the disk as the first one left it. *)
Theorem rmRootDir_recursive_and_idempotent iff w :
  let root := segments (cl_rootDir iff) in
  (∀ e, lstat (disk w) root = Ok e → ∃ w', rmRootDir iff w = (Ok tt, w'))
  ∧ (lstat (disk w) root = Err (FsError ENOENT) → ∃ w', rmRootDir iff w = (Ok tt, w'))
  ∧ (∀ w', rmRootDir iff w = (Ok tt, w') →
       (∀ p, root `prefix_of` p → disk w' !! p = None)
       ∧ (∀ p, ¬ root `prefix_of` p → disk w' !! p = disk w !! p)
       ∧ ∃ w'', rmRootDir iff w' = (Ok tt, w'') ∧ disk w'' = disk w').
Proof.
  intros root. split; [|split].
  - intros e He. destruct (rmRootDir_Ok iff w) as (w' & Hw' & _); [|by exists w'].
    fold root. by rewrite He.
  - intros He. destruct (rmRootDir_Ok iff w) as (w' & Hw' & _); [|by exists w'].
    fold root. rewrite He. by intros e [= <-].
  - intros w' (Hrm & _)%rmRootDir_run. fold root in Hrm.
    apply fs_rm_inv in Hrm as Hinv.
    destruct Hinv as [[_ Hd]|(_ & e & [=] & _)].
    split; [|split].
    + intros p Hp. rewrite Hd, lookup_rm. by rewrite decide_True.
    + intros p Hp. rewrite Hd, lookup_rm. by rewrite decide_False.
    + destruct (rmRootDir_Ok iff w') as (w'' & Hw'' & Hd'').
      * fold root. intros e He. destruct (decide (root = [])) as [Hnil|Hne].
        { by rewrite Hnil in He. }
        rewrite Hd, lstat_rm in He; [by injection He as <-|done|].
        intros e' He'. unfold fs_rm in Hrm. rewrite He' in Hrm.
        destruct e' as [[]|m]; done.
      * exists w''. split; [done|]. fold root in Hd''.
        by rewrite Hd'', Hd, filter_rm_idemp.
Qed.

Section teardown.
Variable opts : DefineIFFCreatorOptions.

(** C10. When the root directory does not exist, [rmFixtures] fails with
    [ENOENT]: it has asked for the entries of the root directory and has
    removed nothing, so the disk is as it was. [rmRootDir] succeeds on the
    same disk. *)
Theorem rmFixtures_absent_root_not_found iff w :
  lstat (disk w) (segments (cl_rootDir iff)) = Err (FsError ENOENT) →
  (∃ w', rmFixtures opts iff w = (Err (FsError ENOENT), w')
         ∧ disk w' = disk w
         ∧ log w' = log w ++ [EvReaddir (cl_rootDir iff)])
  ∧ ∃ w'', rmRootDir iff w = (Ok tt, w'').
Proof.
  intros Habs. split.
  - unfold rmFixtures. rewrite bind_run.
    destruct (node_readdir (cl_rootDir iff) w) as [r w'] eqn:E.
    apply io_run in E as (Hrd & _ & Hl). unfold fs_readdir in Hrd.
    rewrite Habs in Hrd. injection Hrd as <- Hd. by exists w'.
  - destruct (rmRootDir_Ok iff w) as (w'' & Hw'' & _); [|by exists w''].
    rewrite Habs. by intros e [= <-].
Qed.

End teardown.

(** ** What a replay writes *)



(** Whatever a replay at [baseDir] writes lies on the way to [baseDir] or
    below it. *)
Lemma lineage_declares_comparable iff baseDir p :
  lineage_declares iff baseDir p → p `prefix_of` baseDir ∨ baseDir `prefix_of` p.
Proof.
  intros [[_ Hp]%elem_of_prefixes|(q & _ & ->)]; [by left|right]. by apply prefix_app_r.
Qed.

Lemma replay_frame iff baseDir fs r fs' p :
  replay iff baseDir fs = (r, fs') →
  ¬ p `prefix_of` baseDir → ¬ baseDir `prefix_of` p → fs' !! p = fs !! p.
Proof.
  intros Hrun H1 H2.
  eapply (bh_frame _ _ _ (Behaved_replay [] baseDir iff (prefix_nil _))); [done|].
  intros [?|?]%lineage_declares_comparable; tauto.
Qed.



(** ** Copying *)

Lemma cp_entries_frame (src dst : path) l : ∀ (fs : FS) r fs' p,
  forEach (cp_entry src dst) l fs = (r, fs') →
  ¬ dst `prefix_of` p → fs' !! p = fs !! p.
Proof.
  induction l as [|kv l IH]; intros fs r fs' p Hrun Hp; simpl in Hrun.
  - by injection Hrun as <- <-.
  - rewrite bind_run in Hrun. unfold cp_entry in Hrun at 1.
    set (target := dst ++ drop (length src) kv.1) in *.
    assert (target ≠ p) as Hne by (intros <-; apply Hp; by apply prefix_app_r).
    destruct kv.2 as [c|], (fs !! target) as [[c'|]|];
      first [ by injection Hrun as <- <-
            | rewrite (IH _ _ _ _ Hrun Hp); by apply lookup_insert_ne ].
Qed.

Lemma fs_cp_frame (src dst : path) (fs : FS) r fs' p :
  fs_cp src dst fs = (r, fs') →
  ¬ p `prefix_of` dst → ¬ dst `prefix_of` p → fs' !! p = fs !! p.
Proof.
  intros Hrun H1 H2. unfold fs_cp in Hrun.
  assert (p ∉ prefixes dst) as Hnp by (by intros [_ ?]%elem_of_prefixes).
  destruct (lstat fs src) as [[c|]|e]; [| |by injection Hrun as <- <-].
  - assert (∀ m, m = (mkdir_p (dirname dst) ;; writeFile dst c) → m fs = (r, fs') →
              fs' !! p = fs !! p) as Hwrite.
    { intros m -> Hm.
      by eapply (bh_frame _ _ _ (Behaved_file [] dst c (prefix_nil _))). }
    destruct (lstat fs dst) as [[c'|]|e]; [|by injection Hrun as <- <-|];
      (destruct (decide (src = dst)); [by injection Hrun as <- <-|by eapply Hwrite]).
  - destruct (decide (src `prefix_of` dst)); [by injection Hrun as <- <-|].
    assert (∀ l, (mkdir_p dst ;; forEach (cp_entry src dst) l) fs = (r, fs') →
              fs' !! p = fs !! p) as Hcopy.
    { intros l Hm. rewrite bind_run in Hm.
      destruct (mkdir_p dst fs) as [[[]|e] fs1] eqn:E1.
      - rewrite (cp_entries_frame _ _ _ _ _ _ _ Hm H2).
        by eapply (bh_frame _ _ _ (Behaved_mkdir_p [] dst)).
      - injection Hm as <- <-. by eapply (bh_frame _ _ _ (Behaved_mkdir_p [] dst)). }
    destruct (lstat fs dst) as [[c'|]|e]; [by injection Hrun as <- <-|by eapply Hcopy..].
Qed.

(** ** Extending, forking and resetting *)

Lemma prefix_disjoint (old new p : path) :
  ¬ old `prefix_of` new → ¬ new `prefix_of` old → old `prefix_of` p →
  ¬ p `prefix_of` new ∧ ¬ new `prefix_of` p.
Proof.
  intros H1 H2 Hp. split.
  - intros Hpn. apply H1. by etrans.
  - intros Hnp. destruct (prefix_weak_total old new p); tauto.
Qed.

Section lineage.
Variable opts : DefineIFFCreatorOptions.

Lemma chosenRootDir_at dir w : chosenRootDir opts (at_ dir) w = dir.
Proof. done. Qed.

(** What a [createIFF] call does to the disk, whatever its outcome. *)
Lemma createIFF_disk directory options prevIFF w r w' :
  createIFF opts directory options prevIFF w = (r, w') →
  let dir := chosenRootDir opts options w in
  let iff := builtHandle opts directory options prevIFF dir in
  ∃ rw, replay iff (segments dir) (disk w) = (rw, disk w')
        ∧ r = match rw with Ok _ => Ok iff | Err e => Err e end
        ∧ (rw = Ok tt → log w' = log w ++ replayLog iff dir).
Proof.
  intros (w0 & rw & Hd & Hl & _ & Hw & Hr)%createIFF_run dir iff.
  apply writeFixtures_run in Hw as (Hrep & _ & Hlog).
  exists rw. rewrite <-Hd, <-Hl. done.
Qed.

(** C4, as amended. When the new root directory and the root directory of
    the handle are disjoint (neither lies inside the other), and neither
    of them nor any key of the specifications that [fork] writes (those of
    the lineage and the additional one) has a segment [.] or [..], [fork]
    leaves every path under the handle's root directory as it was,
    whether it returns or throws: no file there changes, disappears or
    appears. Without [.] and [..] a path string names the location that
    [segments] gives, and a key stays below the directory it is joined
    to. *)
Theorem fork_preserves_disjoint_source iff additionalDirectory forkOptions w r w' :
  fork opts iff additionalDirectory forkOptions w = (r, w') →
  let old := segments (cl_rootDir iff) in
  let new := segments (chosenRootDir opts forkOptions w) in
  ¬ old `prefix_of` new → ¬ new `prefix_of` old →
  plain old → plain new →
  Forall plain (lineagePaths iff) → Forall plain (nodePaths [] additionalDirectory) →
  ∀ p, old `prefix_of` p → disk w' !! p = disk w !! p.
Proof.
  intros Hrun old new H1 H2 _ _ _ _ p Hp.
  destruct (prefix_disjoint old new p H1 H2 Hp) as [Hpn Hnp].
  apply fork_run in Hrun as (w0 & Hd & _ & _ & [(_ & _ & ->)|(_ & rc & w1 & Hc & Hrest)]);
    [by rewrite Hd|].
  apply createIFF_disk in Hc as (rw & Hrep & Hrc & _).
  rewrite chosenRootDir_at in Hrep. fold new in Hrep.
  apply (replay_frame _ _ _ _ _ p) in Hrep; [|done..]. rewrite Hd in Hrep.
  destruct rc as [forked|e].
  - destruct Hrest as (rcp & (Hcp & _)%io_run & _). fold old new in Hcp.
    by rewrite (fs_cp_frame _ _ _ _ _ _ Hcp Hpn Hnp).
  - by destruct Hrest as [_ ->].
Qed.

(** A successful [fork] has replayed the lineage at the new root
    directory, written the additional fixtures there, and copied last. *)
Lemma fork_log iff additionalDirectory forkOptions w forkedIff w' :
  fork opts iff additionalDirectory forkOptions w = (Ok forkedIff, w') →
  let newRootDir := chosenRootDir opts forkOptions w in
  log w' = log w ++ replayLog iff newRootDir
           ++ [EvCreateIFFImpl additionalDirectory newRootDir;
               EvCp (cl_rootDir iff) newRootDir].
Proof.
  intros (w0 & _ & Hl & _ & [(_ & [=] & _)|(_ & rc & w1 & Hc & Hrest)])%fork_run newRootDir.
  destruct rc as [forked|e]; [|by destruct Hrest].
  destruct Hrest as (rcp & (_ & _ & Hlcp)%io_run & _).
  apply createIFF_disk in Hc as (rw & _ & Hrc & Hlog).
  destruct rw as [[]|e]; [|done]. rewrite Hlcp, Hlog by done.
  rewrite chosenRootDir_at, replayLog_eq. simpl.
  rewrite Hl, <-!app_assoc. done.
Qed.



End lineage.

(** ** Tables *)

Lemma keys_tbl_update k v t : keys (tbl_update k v t) = keys t.
Proof.
  unfold keys. induction t as [|[k' v'] t IH]; csimpl; [done|].
  destruct (decide (k' = k)) as [->|Hne]; csimpl; [done|]. by rewrite IH.
Qed.

Lemma keys_tbl_insert k v t : keys (tbl_insert k v t) ≡ₚ k :: keys t.
Proof.
  unfold keys. induction t as [|[k' v'] t IH]; csimpl; [done|].
  destruct (enumeratedBefore k k'); csimpl; [done|].
  rewrite IH. apply Permutation_swap.
Qed.

Lemma elem_of_keys_tbl_set k v t k' :
  k' ∈ keys (tbl_set k v t) ↔ k' = k ∨ k' ∈ keys t.
Proof.
  unfold tbl_set. destruct (decide (k ∈ keys t)) as [Hin|Hin].
  - rewrite keys_tbl_update. split; [by right|]. by intros [->|?].
  - rewrite keys_tbl_insert. apply elem_of_cons.
Qed.

Lemma tbl_get_update k k' v t :
  k ∈ keys t →
  tbl_get k' (tbl_update k v t) = if decide (k = k') then Some v else tbl_get k' t.
Proof.
  unfold keys. induction t as [|[k0 v0] t IH]; csimpl.
  - by intros ?%elem_of_nil.
  - intros Hin. destruct (decide (k0 = k)) as [->|Hne]; simpl.
    + by destruct (decide (k = k')).
    + apply elem_of_cons in Hin as [?|Hin]; [done|]. rewrite IH by done.
      destruct (decide (k0 = k')) as [->|?]; [|done]. by rewrite decide_False.
Qed.

Lemma tbl_get_insert k k' v t :
  k ∉ keys t →
  tbl_get k' (tbl_insert k v t) = if decide (k = k') then Some v else tbl_get k' t.
Proof.
  unfold keys. induction t as [|[k0 v0] t IH]; csimpl.
  - intros _. by destruct (decide (k = k')).
  - intros [Hne Hin]%not_elem_of_cons.
    destruct (enumeratedBefore k k0); simpl.
    + by destruct (decide (k = k')).
    + rewrite IH by done. destruct (decide (k0 = k')) as [->|?]; [|done].
      by rewrite decide_False.
Qed.

Lemma tbl_get_set k k' v t :
  tbl_get k' (tbl_set k v t) = if decide (k = k') then Some v else tbl_get k' t.
Proof.
  unfold tbl_set.
  destruct (decide (k ∈ keys t)); [by apply tbl_get_update|by apply tbl_get_insert].
Qed.

Lemma tbl_get_None k t : tbl_get k t = None ↔ k ∉ keys t.
Proof.
  unfold keys. induction t as [|[k' v'] t IH]; csimpl.
  - split; [intros _; apply not_elem_of_nil|done].
  - rewrite not_elem_of_cons. destruct (decide (k' = k)) as [->|Hne].
    + split; [done|]. by intros [? _].
    + rewrite IH. split; [by split|]. by intros [_ ?].
Qed.

Lemma NoDup_keys_tbl_set k v t : NoDup (keys t) → NoDup (keys (tbl_set k v t)).
Proof.
  intros Hnd. unfold tbl_set. destruct (decide (k ∈ keys t)) as [Hin|Hin].
  - by rewrite keys_tbl_update.
  - rewrite keys_tbl_insert. by apply NoDup_cons.
Qed.

Lemma table_at_tbl_set rootDir unix k t :
  table_at rootDir unix t → table_at rootDir unix (tbl_set k (absolute rootDir unix k) t).
Proof.
  unfold table_at, tbl_set. intros Ht. destruct (decide (k ∈ keys t)) as [_|_].
  - induction Ht as [|[k' v'] t Hkv Ht IH]; simpl; [done|].
    destruct (decide (k' = k)); by constructor.
  - induction Ht as [|[k' v'] t Hkv Ht IH]; simpl; [by repeat constructor|].
    destruct (enumeratedBefore k k'); by repeat constructor.
Qed.

(** [{ ...a, ...b }] reads [b] first and [a] otherwise, and has the keys
    of both. *)
Lemma tbl_get_spread k b : ∀ a,
  NoDup (keys b) →
  tbl_get k (spread a b) = match tbl_get k b with Some v => Some v | None => tbl_get k a end.
Proof.
  unfold spread. induction b as [|[k0 v0] b IH]; intros a Hnd; simpl; [done|].
  apply NoDup_cons in Hnd as [Hk0 Hnd]. rewrite IH, tbl_get_set by done.
  destruct (decide (k0 = k)) as [->|Hne]; [|done].
  by rewrite (proj2 (tbl_get_None k b)).
Qed.



Lemma table_at_spread rootDir unix b : ∀ a,
  table_at rootDir unix a → table_at rootDir unix b → table_at rootDir unix (spread a b).
Proof.
  unfold spread. induction b as [|[k0 v0] b IH]; intros a Ha Hb; simpl; [done|].
  inversion Hb as [|? ? Hkv Hb']; subst. simpl in Hkv. subst v0.
  apply IH; [|done]. by apply table_at_tbl_set.
Qed.

(** A rebased table has the same keys, each with its absolute path under
    the new root directory; rebasing to the root directory a table is
    already at changes nothing. *)
Lemma changeRootDirOfPaths_at rootDir unix t :
  table_at rootDir unix (changeRootDirOfPaths t rootDir unix).
Proof.
  unfold table_at, changeRootDirOfPaths. apply Forall_forall.
  by intros kv (kv' & -> & _)%list_elem_of_fmap.
Qed.

Lemma changeRootDirOfPaths_same rootDir unix t :
  table_at rootDir unix t → changeRootDirOfPaths t rootDir unix = t.
Proof.
  unfold table_at, changeRootDirOfPaths. induction 1 as [|[k v] t Hkv Ht IH]; simpl; [done|].
  simpl in Hkv. by rewrite IH, Hkv.
Qed.

(** The table of [getPaths], as built from any list of relative paths. *)
Lemma getPaths_fold rootDir unix (l : list path) : ∀ acc,
  let t := foldl (λ acc p, tbl_set (render p) (absolute rootDir unix (render p)) acc) acc l in
  (NoDup (keys acc) → NoDup (keys t))
  ∧ (table_at rootDir unix acc → table_at rootDir unix t)
  ∧ (∀ k, k ∈ keys t ↔ k ∈ keys acc ∨ k ∈ render <$> l).
Proof.
  induction l as [|q l IH]; intros acc; simpl.
  - split; [done|]. split; [done|].
    intros k. split; [by left|]. by intros [?|?%elem_of_nil].
  - destruct (IH (tbl_set (render q) (absolute rootDir unix (render q)) acc))
      as (Hnd & Hat & Hin).
    split; [|split].
    + intros ?. by apply Hnd, NoDup_keys_tbl_set.
    + intros ?. by apply Hat, table_at_tbl_set.
    + intros k. rewrite Hin, elem_of_keys_tbl_set, elem_of_cons. tauto.
Qed.

(** ** The declared paths *)

Lemma itemPaths_segments item : ∀ pre q,
  Forall segment pre → q ∈ itemPaths pre item → Forall segment q.
Proof.
  induction item as [content|sub IH] using DirectoryItem_nested_ind; intros pre q Hpre Hq.
  { by apply elem_of_nil in Hq. }
  apply elem_of_itemPaths_dir in Hq as (kv & Hkv & [(q' & Hq' & ->)|Hq]).
  - apply Forall_app. split; [done|].
    apply elem_of_prefixes in Hq' as [_ [k Hk]].
    pose proof (segments_segment kv.1) as Hs. rewrite Hk in Hs.
    by apply Forall_app in Hs as [? _].
  - eapply (proj1 (Forall_forall _ _) IH kv Hkv); [|done].
    apply Forall_app. split; [done|apply segments_segment].
Qed.

(** The table of [getPaths]: one key per declared path, each with its
    absolute path. *)
Lemma getPaths_spec directory rootDir unix :
  let K := keys (getPaths directory rootDir unix) in
  NoDup K
  ∧ table_at rootDir unix (getPaths directory rootDir unix)
  ∧ (∀ k, k ∈ K ↔ ∃ q, q ∈ nodePaths [] directory ∧ k = render q).
Proof.
  unfold getPaths.
  destruct (getPaths_fold rootDir unix (nodePaths [] directory) [])
    as (Hnd & Hat & Hin).
  split; [apply Hnd, NoDup_nil_2|]. split; [apply Hat; constructor|].
  intros k. rewrite Hin, list_elem_of_fmap. split.
  - intros [?%elem_of_nil|(q & -> & ?)]; [done|by exists q].
  - intros (q & ? & ->). right. by exists q.
Qed.


(** ** The path table of a handle *)

Section tables.
Variable opts : DefineIFFCreatorOptions.

Lemma builtHandle_table_at directory options prevIFF dir :
  table_at dir (unixStyle opts) (paths (builtHandle opts directory options prevIFF dir)).
Proof.
  simpl. apply table_at_spread; [apply changeRootDirOfPaths_at|].
  apply getPaths_spec.
Qed.



(** C3. The handle returned by [addFixtures] has the root directory of
    the handle it extends, and its path table is that handle's table
    with the entries of the new specification added: a key of the new
    specification holds the new value, and every other key holds what it
    held in the old table, or nothing if it was not there. *)
Theorem addFixtures_paths_additive
    directory options prevIFF w0 iff w1 additionalDirectory w added w' :
  createIFF opts directory options prevIFF w0 = (Ok iff, w1) →
  addFixtures opts iff additionalDirectory w = (Ok added, w') →
  let new := getPaths additionalDirectory (cl_rootDir iff) (unixStyle opts) in
  rootDir added = rootDir iff
  ∧ cl_rootDir added = cl_rootDir iff
  ∧ (∀ k, tbl_get k (paths added)
          = match tbl_get k new with
            | Some v => Some v
            | None => tbl_get k (paths iff)
            end).
Proof.
  intros (-> & _)%createIFF_Ok (-> & _)%createIFF_Ok new.
  set (iff := builtHandle opts directory options prevIFF (chosenRootDir opts options w0)).
  change (chosenRootDir opts _ w) with (cl_rootDir iff).
  set (added := builtHandle opts additionalDirectory _ (Some iff) (cl_rootDir iff)).
  assert (paths added = spread (paths iff) new) as ->.
  { unfold added. simpl. f_equal. apply changeRootDirOfPaths_same.
    apply (builtHandle_table_at directory options prevIFF). }
  destruct (getPaths_spec additionalDirectory (cl_rootDir iff) (unixStyle opts))
    as (Hnd & _).
  split; [done|]. split; [done|].
  intros k. by apply tbl_get_spread.
Qed.

End tables.

(** * Runs on concrete fixtures *)

Ltac run := vm_compute; reflexivity.
Ltac decided := apply (bool_decide_unpack _); vm_compute; exact I.

(** C1, on the input where the code departs from it. A base fixture holds
    [a.txt] with content [a]; it is forked with the additional fixture
    [a.txt] of content [z]. The calls [fork] makes are, in this order: the
    replay of the base generation at the new root directory, the write of
    the additional fixtures there, and only then the copy of the old root
    directory. The copy overwrites the additional fixture: the fork's
    [a.txt] holds [a]. *)
Theorem fork_copy_runs_after_additional_fixtures :
  let base := builtHandle sampleOptions [("a.txt", FileItem "a")] None None "/tmp/fixtures/a" in
  let w0 := (createIFF sampleOptions [("a.txt", FileItem "a")] None None emptyWorld).2 in
  let forked := builtHandle sampleOptions [("a.txt", FileItem "z")] (at_ "/tmp/fixtures/b")
                  (Some base) "/tmp/fixtures/b" in
  let w1 := (fork sampleOptions base [("a.txt", FileItem "z")] None w0).2 in
  createIFF sampleOptions [("a.txt", FileItem "a")] None None emptyWorld = (Ok base, w0)
  ∧ fork sampleOptions base [("a.txt", FileItem "z")] None w0 = (Ok forked, w1)
  ∧ log w1 = [EvCreateIFFImpl [("a.txt", FileItem "a")] "/tmp/fixtures/a";
              EvCreateIFFImpl [("a.txt", FileItem "a")] "/tmp/fixtures/b";
              EvCreateIFFImpl [("a.txt", FileItem "z")] "/tmp/fixtures/b";
              EvCp "/tmp/fixtures/a" "/tmp/fixtures/b"]
  ∧ disk w1 !! ["tmp"; "fixtures"; "b"; "a.txt"] = Some (File "a").
Proof.
  intros base w0 forked w1. split; [run|]. split; [run|]. split; run.
Qed.


(** C4 fails as stated: a fixture at [/tmp/a/b] is forked to the different
    root directory [/tmp/a] with the additional fixture [b/x.txt]; the call
    returns, and the file [x.txt] of the original root directory has
    changed from [old] to [new]. *)
Lemma fork_to_enclosing_root_changes_source :
  let base := builtHandle sampleOptions [("x.txt", FileItem "old")] (at_ "/tmp/a/b") None
                "/tmp/a/b" in
  let w0 := (createIFF sampleOptions [("x.txt", FileItem "old")] (at_ "/tmp/a/b") None
               emptyWorld).2 in
  let forked := builtHandle sampleOptions [("b/x.txt", FileItem "new")] (at_ "/tmp/a")
                  (Some base) "/tmp/a" in
  let w1 := (fork sampleOptions base [("b/x.txt", FileItem "new")] (at_ "/tmp/a") w0).2 in
  createIFF sampleOptions [("x.txt", FileItem "old")] (at_ "/tmp/a/b") None emptyWorld
  = (Ok base, w0)
  ∧ disk w0 !! ["tmp"; "a"; "b"; "x.txt"] = Some (File "old")
  ∧ "/tmp/a" ≠ cl_rootDir base
  ∧ fork sampleOptions base [("b/x.txt", FileItem "new")] (at_ "/tmp/a") w0 = (Ok forked, w1)
  ∧ disk w1 !! ["tmp"; "a"; "b"; "x.txt"] = Some (File "new").
Proof.
  intros base w0 forked w1.
  split; [run|]. split; [run|]. split; [decided|]. split; run.
Qed.


(** The theorems above, at the fixtures of the package's tests. *)


Lemma generateRootDir_once_unless_overridden_witness :
  generated (createIFF sampleOptions sampleDirectory None None emptyWorld).2 = 1
  ∧ generated (createIFF sampleOptions sampleDirectory (at_ "/tmp/a-2") None emptyWorld).2 = 0
  ∧ generated (fork sampleOptions sampleBase sampleAddition None sampleWorld).2 = 2
  ∧ generated (fork sampleOptions sampleBase sampleAddition (at_ "/tmp/b-2") sampleWorld).2 = 1.
Proof.
  destruct (generateRootDir_once_unless_overridden sampleOptions sampleDirectory None None
              sampleBase sampleAddition None emptyWorld) as (H1 & _).
  destruct (generateRootDir_once_unless_overridden sampleOptions sampleDirectory
              (at_ "/tmp/a-2") None sampleBase sampleAddition None sampleWorld)
    as (H2 & H3 & _).
  destruct (generateRootDir_once_unless_overridden sampleOptions sampleDirectory None None
              sampleBase sampleAddition (at_ "/tmp/b-2") sampleWorld) as (_ & H4 & _).
  split; [exact H1|]. split; [|split].
  - destruct (generateRootDir_once_unless_overridden sampleOptions sampleDirectory
                (at_ "/tmp/a-2") None sampleBase sampleAddition None emptyWorld) as (H & _).
    exact H.
  - rewrite H3. unfold sampleWorld. simpl. by rewrite H1.
  - rewrite H4. unfold sampleWorld. simpl. by rewrite H1.
Defined.

Lemma fork_same_rootDir_rejected_witness :
  ∃ w', fork sampleOptions sampleBase [] (at_ "/tmp/fixtures/a") sampleWorld
        = (Err (JsError sameRootDirMessage), w')
        ∧ disk w' = disk sampleWorld ∧ log w' = log sampleWorld.
Proof.
  apply (fork_same_rootDir_rejected sampleOptions sampleBase [] (at_ "/tmp/fixtures/a")
           sampleWorld).
  reflexivity.
Defined.

Lemma rmRootDir_recursive_and_idempotent_witness :
  (∃ w', rmRootDir sampleBase sampleWorld = (Ok tt, w'))
  ∧ (∃ w', rmRootDir sampleBase emptyWorld = (Ok tt, w')).
Proof.
  split.
  - apply (proj1 (rmRootDir_recursive_and_idempotent sampleBase sampleWorld) Dir). run.
  - apply (proj1 (proj2 (rmRootDir_recursive_and_idempotent sampleBase emptyWorld))). run.
Defined.

Lemma rmFixtures_absent_root_not_found_witness :
  (∃ w', rmFixtures sampleOptions sampleBase emptyWorld = (Err (FsError ENOENT), w')
         ∧ disk w' = disk emptyWorld
         ∧ log w' = log emptyWorld ++ [EvReaddir (cl_rootDir sampleBase)])
  ∧ ∃ w'', rmRootDir sampleBase emptyWorld = (Ok tt, w'').
Proof.
  apply (rmFixtures_absent_root_not_found sampleOptions sampleBase emptyWorld). run.
Defined.


Lemma addFixtures_paths_additive_witness :
  createIFF sampleOptions sampleDirectory None None emptyWorld = (Ok sampleBase, sampleWorld)
  ∧ addFixtures sampleOptions sampleBase sampleAddition sampleWorld
    = (Ok sampleAdded, sampleAddedWorld)
  ∧ rootDir sampleAdded = rootDir sampleBase
  ∧ tbl_get "b/b.txt" (paths sampleAdded) = Some "/tmp/fixtures/a/b/b.txt"
  ∧ tbl_get "b/a.txt" (paths sampleAdded) = tbl_get "b/a.txt" (paths sampleBase)
  ∧ tbl_get "d.txt" (paths sampleAdded) = None.
Proof.
  assert (createIFF sampleOptions sampleDirectory None None emptyWorld
          = (Ok sampleBase, sampleWorld)) as Hbase by run.
  assert (addFixtures sampleOptions sampleBase sampleAddition sampleWorld
          = (Ok sampleAdded, sampleAddedWorld)) as Hadd by run.
  destruct (addFixtures_paths_additive sampleOptions sampleDirectory None None emptyWorld
              sampleBase sampleWorld sampleAddition sampleWorld sampleAdded
              sampleAddedWorld Hbase Hadd) as (Hroot & _ & Hget).
  split; [exact Hbase|]. split; [exact Hadd|]. split; [exact Hroot|].
  rewrite !Hget. split; [run|]. split; run.
Defined.

Lemma fork_preserves_disjoint_source_witness :
  disk (fork sampleOptions sampleBase sampleAddition None sampleWorld).2
    !! ["tmp"; "fixtures"; "a"; "b"; "a.txt"]
  = disk sampleWorld !! ["tmp"; "fixtures"; "a"; "b"; "a.txt"].
Proof.
  apply (fork_preserves_disjoint_source sampleOptions sampleBase sampleAddition None
           sampleWorld (fork sampleOptions sampleBase sampleAddition None sampleWorld).1
           (fork sampleOptions sampleBase sampleAddition None sampleWorld).2).
  - by destruct (fork sampleOptions sampleBase sampleAddition None sampleWorld).
  - decided.
  - decided.
  - decided.
  - decided.
  - decided.
  - decided.
  - decided.
Defined.


